(** * Borehole density map: the H3 aggregation pipeline of [scripts/processor.py]

    The script loads a borehole shapefile into an in-memory DuckDB database,
    reprojects the geometry, tags every row with one H3 cell per resolution
    0..15, and for every resolution creates, exports and drops one aggregate
    table.  The SQL statements are embedded as functions on an explicit
    database state; statements that DuckDB rejects (a table or column that
    already exists or is missing, an external function that raises) return
    an error, which aborts the script as the Python exception does.

    Modelling boundary.  DOUBLE values, geometries and the source attribute
    columns are carried opaquely (type parameters [D], [G], [A]); the
    external scalar functions of the spatial and h3 extensions are
    parameters.  The source attribute columns are assumed not to be named
    like the columns the script adds.  Standard output and storage failures
    of [COPY] are not modelled. *)

From Stdlib Require Import ZArith Lia.
From stdpp Require Import base option list gmap strings.

Local Open Scope string_scope.
Local Open Scope nat_scope.
#[local] Set Warnings "-register-all".

(** ** Errors and the result monad *)

Inductive error : Type :=
| TableExists
| TableMissing
| ColumnExists
| ColumnMissing
| FunctionRaised.

Inductive res (X : Type) : Type :=
| Ok (x : X)
| Err (e : error).
Arguments Ok {X} x.
Arguments Err {X} e.

#[global] Instance res_ret : MRet res := λ X, Ok.
#[global] Instance res_bind : MBind res :=
  λ X Y f m, match m with Ok x => f x | Err e => Err e end.

(** [UPDATE t SET c = f(...)]: the expression is evaluated on every row; the
    first row on which it raises aborts the statement. *)
Fixpoint res_mapM {X Y : Type} (f : X → res Y) (l : list X) : res (list Y) :=
  match l with
  | [] => Ok []
  | x :: l' => y ← f x; ys ← res_mapM f l'; Ok (y :: ys)
  end.

(** A scalar SQL function applied to a nullable argument: NULL in, NULL out,
    without calling the function. *)
Definition sql_call {X Y : Type} (f : X → res (option Y)) (x : option X)
  : res (option Y) :=
  match x with
  | None => Ok None
  | Some v => f v
  end.

(** ** Data model *)

(** One feature of the shapefile as [ST_READ] returns it. *)
Record source_row (G A : Type) : Type := SourceRow {
  src_attrs : A;
  src_geom : option G
}.
Arguments SourceRow {G A} _ _.
Arguments src_attrs {G A} _.
Arguments src_geom {G A} _.

(** One row of [boreholes].  [lon] and [lat] are NULL until the script has
    added and filled them.  [h3_scale] holds the columns [h3_scale_i] that
    have been added so far; a NULL value is [None]. *)
Record row (D G A : Type) : Type := Row {
  attrs : A;
  geom : option G;
  lon : option D;
  lat : option D;
  h3_scale : gmap nat (option Z)
}.
Arguments Row {D G A} _ _ _ _ _.
Arguments attrs {D G A} _.
Arguments geom {D G A} _.
Arguments lon {D G A} _.
Arguments lat {D G A} _.
Arguments h3_scale {D G A} _.

Record table (D G A : Type) : Type := Table {
  h3_columns : list nat;
  rows : list (row D G A)
}.
Arguments Table {D G A} _ _.
Arguments h3_columns {D G A} _.
Arguments rows {D G A} _.

(** One row of [boreholes_h3_scale_j]. *)
Record agg_row : Type := AggRow {
  cell : option Z;
  wkt : option string;
  count : Z
}.

#[global] Instance agg_row_eq_dec : EqDecision agg_row.
Proof. solve_decision. Defined.

(** JSON values, as far as [COPY ... (ARRAY)] writes them. *)
Inductive json : Type :=
| JNull
| JInt (n : Z)
| JStr (s : string)
| JArr (items : list json)
| JObj (fields : list (string * json)).

(** The database catalog and the export directory.  Aggregate tables and
    artifacts are keyed by their resolution [j]: [boreholes_h3_scale_j]
    (identifiers are case-insensitive, so [BOREHOLES_H3_SCALE_j] is the same
    table) and [./public/data/h3_scale_j.json]. *)
Record world (D G A : Type) : Type := World {
  boreholes : option (table D G A);
  aggs : gmap nat (list agg_row);
  files : gmap nat json
}.
Arguments World {D G A} _ _ _.
Arguments boreholes {D G A} _.
Arguments aggs {D G A} _.
Arguments files {D G A} _.

(** DuckDB does not fix the order in which a hash aggregate emits its
    groups.  An engine chooses, per statement, some arrangement of the
    groups. *)
Record engine : Type := Engine {
  group_order : nat → list agg_row → list agg_row;
  group_order_perm : ∀ j l, group_order j l ≡ₚ l
}.

Definition scales : list nat :=
  [0; 1; 2; 3; 4; 5; 6; 7; 8; 9; 10; 11; 12; 13; 14; 15]%nat.

(** ** Relational operators *)

(** [GROUP BY key]: one group per distinct key value; NULL keys form one
    group. *)
Definition group_by {X K : Type} `{EqDecision K} (key : X → K) (l : list X)
  : list (K * list X) :=
  (λ k, (k, filter (λ x, key x = k) l)) <$> remove_dups (key <$> l).

(** [COUNT(e)]: the rows of the group on which [e] is not NULL. *)
Definition sql_count {X V : Type} (e : X → option V) (g : list X) : Z :=
  Z.of_nat (length (filter (λ x, is_Some (e x)) g)).

Definition json_of_option {X : Type} (f : X → json) (o : option X) : json :=
  match o with
  | Some x => f x
  | None => JNull
  end.

Definition record_to_json (r : agg_row) : json :=
  JObj [("cell", json_of_option JInt (cell r));
        ("wkt", json_of_option JStr (wkt r));
        ("count", JInt (count r))].

Definition copy_array (l : list agg_row) : json :=
  JArr (record_to_json <$> l).

(** The value of column [h3_scale_j] in a row. *)
Definition cell_at {D G A : Type} (j : nat) (r : row D G A) : option Z :=
  match h3_scale r !! j with
  | Some v => v
  | None => None
  end.

(** [sum(count)] over an aggregate relation. *)
Definition sum_counts (l : list agg_row) : Z :=
  foldr (λ a s, (count a + s)%Z) 0%Z l.

(** The points whose [h3_scale_j] is [c]. *)
Definition points_in_cell {D G A : Type} (j : nat) (c : option Z)
  (rs : list (row D G A)) : list (row D G A) :=
  filter (λ r, cell_at j r = c) rs.

(** The points whose [h3_scale_j] is not NULL. *)
Definition tagged_points {D G A : Type} (j : nat) (rs : list (row D G A))
  : list (row D G A) :=
  filter (λ r, is_Some (cell_at j r)) rs.

(** ** The script *)

Section Pipeline.
Context {D G A : Type}.
Variable ST_Transform : G → res (option G).
Variable ST_X : G → res (option D).
Variable ST_Y : G → res (option D).
Variable h3_latlng_to_cell : D → D → nat → option Z.
Variable h3_cell_to_boundary_wkt : Z → option string.
Variable E : engine.

#[local] Abbreviation row := (row D G A).
#[local] Abbreviation table := (table D G A).
#[local] Abbreviation world := (world D G A).
#[local] Abbreviation step := (world → res world).

Definition set_boreholes (w : world) (t : table) : world :=
  World (Some t) (aggs w) (files w).

Definition with_boreholes (f : table → res table) : step :=
  λ w, match boreholes w with
       | None => Err TableMissing
       | Some t => t' ← f t; Ok (set_boreholes w t')
       end.

(** [CREATE TABLE boreholes AS SELECT * FROM ST_READ(...)].  The fields of
    the shapefile are kept as one opaque value per feature: a shapefile
    that already has a field named [lon], [lat] or [h3_scale_i], on which
    the later [ALTER TABLE ... ADD COLUMN] raises, is outside the model. *)
Definition create_boreholes (src : list (source_row G A)) : step :=
  λ w, match boreholes w with
       | Some _ => Err TableExists
       | None =>
           Ok (set_boreholes w
                 (Table [] ((λ s, Row (src_attrs s) (src_geom s) None None ∅)
                            <$> src)))
       end.

(** [UPDATE boreholes SET geom = ST_Transform(geom, ...)] *)
Definition transform_geom : step :=
  with_boreholes (λ t,
    rs ← res_mapM (λ r, g ← sql_call ST_Transform (geom r);
                        Ok (Row (attrs r) g (lon r) (lat r) (h3_scale r)))
                  (rows t);
    Ok (Table (h3_columns t) rs)).

(** [ALTER TABLE boreholes ADD COLUMN lon DOUBLE; ... ADD COLUMN lat DOUBLE]:
    the new columns are NULL in every row. *)
Definition add_lon_lat : step :=
  with_boreholes (λ t,
    Ok (Table (h3_columns t)
          ((λ r, Row (attrs r) (geom r) None None (h3_scale r)) <$> rows t))).

(** [UPDATE boreholes SET lon = ST_X(geom), lat = ST_Y(geom)] *)
Definition update_lon_lat : step :=
  with_boreholes (λ t,
    rs ← res_mapM (λ r, x ← sql_call ST_X (geom r);
                        y ← sql_call ST_Y (geom r);
                        Ok (Row (attrs r) (geom r) x y (h3_scale r)))
                  (rows t);
    Ok (Table (h3_columns t) rs)).

(** [h3_latlng_to_cell(lat, lon, i)] on nullable coordinates. *)
Definition cell_of (la lo : option D) (i : nat) : option Z :=
  la' ← la; lo' ← lo; h3_latlng_to_cell la' lo' i.

(** [ALTER TABLE boreholes ADD COLUMN h3_scale_i BIGINT] *)
Definition add_h3_column (i : nat) (t : table) : res table :=
  if decide (i ∈ h3_columns t) then Err ColumnExists
  else Ok (Table (h3_columns t ++ [i])
             ((λ r, Row (attrs r) (geom r) (lon r) (lat r)
                        (<[i:=None]> (h3_scale r))) <$> rows t)).

(** [UPDATE boreholes SET h3_scale_i = h3_latlng_to_cell(lat, lon, i)] *)
Definition update_h3_column (i : nat) (t : table) : res table :=
  if decide (i ∈ h3_columns t) then
    Ok (Table (h3_columns t)
          ((λ r, Row (attrs r) (geom r) (lon r) (lat r)
                     (<[i:=cell_of (lat r) (lon r) i]> (h3_scale r)))
           <$> rows t))
  else Err ColumnMissing.

(** A row after the columns [js] have been added and filled. *)
Definition tag_row (js : list nat) (r : row) : row :=
  Row (attrs r) (geom r) (lon r) (lat r)
      (foldl (λ m i, <[i:=cell_of (lat r) (lon r) i]> m) (h3_scale r) js).

(** Body of the first loop: both statements are sent in one [db.sql]. *)
Definition tag_step (i : nat) : step :=
  with_boreholes (λ t, t' ← add_h3_column i t; update_h3_column i t').

(** [SELECT * FROM BOREHOLES] (printed) *)
Definition select_boreholes : step :=
  λ w, match boreholes w with
       | None => Err TableMissing
       | Some _ => Ok w
       end.

(** [SELECT h3_scale_j as cell, h3_cell_to_boundary_wkt(h3_scale_j) as wkt,
            COUNT(h3_scale_j) as count FROM boreholes GROUP BY h3_scale_j] *)
Definition aggregate (j : nat) (rs : list row) : list agg_row :=
  (λ kg : option Z * list row,
     AggRow (kg.1) (kg.1 ≫= h3_cell_to_boundary_wkt) (sql_count (cell_at j) (kg.2)))
  <$> group_by (cell_at j) rs.

(** The relation [CREATE TABLE boreholes_h3_scale_j AS SELECT ...]
    materialises: the groups in the order the engine emits them. *)
Definition aggregate_table (j : nat) (rs : list row) : list agg_row :=
  group_order E j (aggregate j rs).

(** [CREATE TABLE boreholes_h3_scale_j AS SELECT ...] *)
Definition create_agg (j : nat) : step :=
  λ w, match boreholes w with
       | None => Err TableMissing
       | Some t =>
           if decide (j ∈ h3_columns t) then
             match aggs w !! j with
             | Some _ => Err TableExists
             | None =>
                 Ok (World (boreholes w)
                       (<[j:=aggregate_table j (rows t)]> (aggs w))
                       (files w))
             end
           else Err ColumnMissing
       end.

(** [COPY boreholes_h3_scale_j TO './public/data/h3_scale_j.json' (ARRAY)]:
    an existing artifact is overwritten. *)
Definition copy_agg (j : nat) : step :=
  λ w, match aggs w !! j with
       | None => Err TableMissing
       | Some l => Ok (World (boreholes w) (aggs w) (<[j:=copy_array l]> (files w)))
       end.

(** [SELECT * FROM BOREHOLES_H3_SCALE_j] (printed) *)
Definition select_agg (j : nat) : step :=
  λ w, match aggs w !! j with
       | None => Err TableMissing
       | Some _ => Ok w
       end.

(** [DROP TABLE BOREHOLES_H3_SCALE_j] *)
Definition drop_agg (j : nat) : step :=
  λ w, match aggs w !! j with
       | None => Err TableMissing
       | Some _ => Ok (World (boreholes w) (delete j (aggs w)) (files w))
       end.

(** The export directory after the loop body has run for the resolutions
    [js], starting from [fs]. *)
Definition exported (t : table) (fs : gmap nat json) (js : list nat)
  : gmap nat json :=
  foldl (λ fs j, <[j:=copy_array (aggregate_table j (rows t))]> fs) fs js.

(** Body of the second loop, one [db.sql] call per statement. *)
Definition agg_steps (j : nat) : list step :=
  [create_agg j; copy_agg j; select_agg j; drop_agg j].

(** Running statements in sequence; the first error aborts. *)
Fixpoint exec (ss : list step) (w : world) : res world :=
  match ss with
  | [] => Ok w
  | s :: ss' => w' ← s w; exec ss' w'
  end.

(** The states the database goes through, the initial one included. *)
Fixpoint trace (ss : list step) (w : world) : list world :=
  w :: match ss with
       | [] => []
       | s :: ss' => match s w with
                     | Ok w' => trace ss' w'
                     | Err _ => []
                     end
       end.

Definition normalizer_steps (src : list (source_row G A)) : list step :=
  [create_boreholes src; transform_geom; add_lon_lat; update_lon_lat].

Definition tagging_steps : list step := tag_step <$> scales.

Definition aggregation_steps : list step := scales ≫= agg_steps.

(** Everything up to the summary print before the second loop. *)
Definition setup_steps (src : list (source_row G A)) : list step :=
  normalizer_steps src ++ tagging_steps ++ [select_boreholes].

Definition script_steps (src : list (source_row G A)) : list step :=
  setup_steps src ++ aggregation_steps.

(** [duckdb.connect()] opens an empty in-memory database; [fs] is what the
    export directory holds before the run. *)
Definition fresh (fs : gmap nat json) : world := World None ∅ fs.

Definition run (src : list (source_row G A)) (fs : gmap nat json) : res world :=
  exec (script_steps src) (fresh fs).

End Pipeline.


(** ** Vocabulary of the specification *)

(** The number of distinct cells in an aggregate relation; NULL is not a
    cell. *)
Definition distinct_cells (l : list agg_row) : nat :=
  length (remove_dups (omap cell l)).

(** The aggregate-row property in the specification's words: unique cells,
    one row per distinct cell value among the points, and in every row a
    count of at least 1 that is the number of points in the row's cell. *)
Definition rows_as_specified {D G A : Type} (j : nat) (rs : list (row D G A))
  (l : list agg_row) : Prop :=
  NoDup (cell <$> l)
  ∧ (∀ c, c ∈ cell <$> l ↔ c ∈ cell_at j <$> rs)
  ∧ (∀ a, a ∈ l →
       (1 ≤ count a)%Z
       ∧ count a = Z.of_nat (length (points_in_cell j (cell a) rs))).

(** Monotonic cell growth in the specification's words: over one point
    relation, for every resolution [j] in 0..14, the resolution [j + 1]
    aggregate has at least as many distinct cells as the resolution [j]
    aggregate. *)
Definition growth_as_specified {D G A : Type} (wktf : Z → option string)
  (E : engine) (rs : list (row D G A)) : Prop :=
  ∀ j, j < 15 →
    distinct_cells (aggregate_table wktf E j rs)
    ≤ distinct_cells (aggregate_table wktf E (S j) rs).




(** ** The staleness check of [main] *)

Section Staleness.
(** What [os.path.getmtime] returns, and [datetime.fromtimestamp].  A naive
    [datetime] is its number of microseconds since [datetime.min]; a
    [timedelta] is a number of microseconds.  Arithmetic stays away from
    [datetime.min] and [datetime.max]. *)
Variable T : Type.
Variable fromtimestamp : T → Z.

Definition timedelta_weeks (n : Z) : Z := (n * 7 * 24 * 60 * 60 * 1000000)%Z.

(** [fs] maps the paths that exist to their modification time; [now] is
    what [datetime.now()] returns. *)
Definition is_file_older_than_two_weeks (fs : gmap string T) (now : Z)
  (filepath : string) : bool :=
  match fs !! filepath with
  | None => true
  | Some mtime =>
      let file_time := fromtimestamp mtime in
      let two_weeks_ago := (now - timedelta_weeks 2)%Z in
      bool_decide (file_time < two_weeks_ago)%Z
  end.

(** The calls [main] makes to its collaborators. *)
Inductive action : Type :=
| Mkdir (path : string)
| Download (url output_file : string)
| ExtractZip (zip_file extract_path : string)
| RemoveIfExists (path : string).

Definition borehole_url : string :=
  "https://www.bgs.ac.uk/download/single-onshore-borehole-index-sobi-dataset/?wpdmdl=117205&refresh=680bebe4ded481745611748".
Definition zip_file : string := "boreholes.zip".
Definition extract_path : string := "borehole".
Definition shapefile_path : string := extract_path ++ "/" ++ "borehole.shp".

(** Creating the two directories does not change whether the shapefile
    exists, so the check reads [fs]. *)
Definition main (fs : gmap string T) (now : Z) : list action :=
  [Mkdir extract_path; Mkdir "public/data"]
  ++ (if is_file_older_than_two_weeks fs now shapefile_path
      then [Download borehole_url zip_file;
            ExtractZip zip_file extract_path;
            RemoveIfExists zip_file]
      else []).

End Staleness.

(** ** Further vocabulary: the normalizer row by row, counts per cell *)

Section Normalized.
Context {D G A : Type}.
Variable ST_Transform : G → res (option G).
Variable ST_X : G → res (option D).
Variable ST_Y : G → res (option D).

(** [r] is what the first four statements of the script make of the
    feature [s]: the attributes are kept, the geometry is the transformed
    one, [lon] and [lat] are read off it, and there is no cell column yet. *)
Definition normalized (s : source_row G A) (r : row D G A) : Prop :=
  attrs r = src_attrs s
  ∧ sql_call ST_Transform (src_geom s) = Ok (geom r)
  ∧ sql_call ST_X (geom r) = Ok (lon r)
  ∧ sql_call ST_Y (geom r) = Ok (lat r)
  ∧ h3_scale r = ∅.

End Normalized.

(** The count an aggregate relation holds for the cell [z]: the counts of
    the rows whose cell is [z], 0 when there is none. *)
Definition cell_count (l : list agg_row) (z : Z) : Z :=
  sum_counts (filter (λ a, cell a = Some z) l).

(** ** [download_borehole_data]

    The files are a map from paths to contents.  [requests.get] and
    [raise_for_status] may raise; [iter_content] yields finitely many chunks
    and may then raise.  A function returns the files as it leaves them,
    and whether it returned or raised.  Failures of [open] and [write] are
    not modelled. *)

Section Download.
Variable response : Type.
Variable requests_get : string → res response.
Variable raise_for_status : response → res unit.
Variable iter_content : response → Z → list (list Byte.byte) * option error.

(** [f.write(chunk)] on the file opened at [path]. *)
Definition write_chunk (path : string) (fs : gmap string (list Byte.byte))
  (chunk : list Byte.byte) : gmap string (list Byte.byte) :=
  alter (λ content, (content ++ chunk)%list) path fs.

Definition download_borehole_data (url output_file : string)
  (fs : gmap string (list Byte.byte))
  : gmap string (list Byte.byte) * res unit :=
  match requests_get url with
  | Err e => (fs, Err e)
  | Ok r =>
      match raise_for_status r with
      | Err e => (fs, Err e)
      | Ok _ =>
          (* open(output_file, 'wb') creates or truncates *)
          let opened := <[output_file:=[]]> fs in
          let stream := iter_content r 8192%Z in
          (foldl (write_chunk output_file) opened (stream.1),
           match stream.2 with
           | Some e => Err e
           | None => Ok ()
           end)
      end
  end.

End Download.

(** ** A small instance for examples

    Coordinates are integers, a geometry is a pair [(x, y)] that the
    projection leaves as it is, and the index cuts the latitude axis into
    strips that halve with every resolution: the cell of [la] at
    resolution [r] is the strip number [la / 2^(15 - r)], stored with [r]
    in the low four bits. *)

Definition strip_transform (g : Z * Z) : res (option (Z * Z)) := Ok (Some g).
Definition strip_x (g : Z * Z) : res (option Z) := Ok (Some (g.1)).
Definition strip_y (g : Z * Z) : res (option Z) := Ok (Some (g.2)).

Definition strip_index (la lo : Z) (r : nat) : option Z :=
  Some (16 * (la / 2 ^ (15 - Z.of_nat r)) + Z.of_nat r)%Z.

Definition strip_wkt (c : Z) : option string := Some "POLYGON".

(** An engine that emits the groups in the order [aggregate] lists them,
    and one that emits them in the reverse order. *)
Definition in_order : engine :=
  Engine (λ _ l, l) (λ _ l, reflexivity l).

Definition reversed : engine :=
  Engine (λ _ l, reverse l) (λ _ l, reverse_Permutation l).

(** Three boreholes, the second without geometry. *)
Definition three_boreholes : list (source_row (Z * Z) string) :=
  [SourceRow "BH1" (Some (7, 40000)%Z);
   SourceRow "BH2" None;
   SourceRow "BH3" (Some (9, 40001)%Z)].

(** Two boreholes with geometry. *)
Definition two_boreholes : list (source_row (Z * Z) string) :=
  [SourceRow "BH1" (Some (7, 40000)%Z);
   SourceRow "BH3" (Some (9, 40001)%Z)].

(** The rows the normalizer makes of [three_boreholes], and the table the
    tagging loop makes of them. *)
Definition three_rows : list (row Z (Z * Z) string) :=
  [Row "BH1" (Some (7, 40000)%Z) (Some 7%Z) (Some 40000%Z) ∅;
   Row "BH2" None None None ∅;
   Row "BH3" (Some (9, 40001)%Z) (Some 9%Z) (Some 40001%Z) ∅].

Definition three_tagged : table Z (Z * Z) string :=
  Table scales (tag_row strip_index scales <$> three_rows).

(** A projection that raises south of the origin, and a source with one
    borehole there. *)
Definition north_transform (g : Z * Z) : res (option (Z * Z)) :=
  if decide (0 ≤ g.2)%Z then Ok (Some g) else Err FunctionRaised.

Definition south_borehole : list (source_row (Z * Z) string) :=
  [SourceRow "BH1" (Some (7, 40000)%Z);
   SourceRow "BH4" (Some (3, -5)%Z)].

(** The directory the run on [three_boreholes] leaves when it starts from
    an empty one and the engine emits groups in order. *)
Definition three_exported : gmap nat json :=
  exported strip_wkt in_order three_tagged ∅ scales.

(** A response is the chunks it will yield and the exception that ends the
    stream, if any; only the borehole URL answers, with a stream that
    breaks after two chunks. *)
Definition broken_get (url : string)
  : res (list (list Byte.byte) * option error) :=
  if decide (url = borehole_url)
  then Ok ([[Byte.x50; Byte.x4b]; [Byte.x03; Byte.x04]], Some FunctionRaised)
  else Err FunctionRaised.

Definition broken_status (r : list (list Byte.byte) * option error) : res unit :=
  Ok ().

Definition broken_content (r : list (list Byte.byte) * option error) (size : Z)
  : list (list Byte.byte) * option error := r.

(** Two boreholes A and B on either side of a cell edge, and the
    identifiers the h3 extension gives them: two cells at resolution 5
    ([0x85195da7fffffff] for A, [0x85194ad3fffffff] for B) and one cell at
    resolution 6 ([0x86195da4fffffff] for both).  The latitudes 1 and 2
    stand for the two locations; the index is a table of these answers and
    answers NULL elsewhere. *)
Definition edge_index (la lo : Z) (r : nat) : option Z :=
  if decide (r = 5) then
    if decide (la = 1)%Z then Some 599424991099879423%Z
    else if decide (la = 2)%Z then Some 599423697240981503%Z
    else None
  else if decide (r = 6) then
    if decide (la = 1 ∨ la = 2)%Z then Some 603928589921943551%Z else None
  else None.

Definition edge_boreholes : list (source_row (Z * Z) string) :=
  [SourceRow "A" (Some (0, 1)%Z); SourceRow "B" (Some (0, 2)%Z)].

Definition edge_tagged : table Z (Z * Z) string :=
  Table scales
    (tag_row edge_index scales
     <$> [Row "A" (Some (0, 1)%Z) (Some 0%Z) (Some 1%Z) ∅;
          Row "B" (Some (0, 2)%Z) (Some 0%Z) (Some 2%Z) ∅]).

(** * Facts about the relational operators *)

Lemma sum_counts_perm (l k : list agg_row) : l ≡ₚ k → sum_counts l = sum_counts k.
Proof. induction 1; simpl; lia. Qed.

Lemma sum_counts_fmap {X : Type} (f : X → agg_row) (n : X → nat) (l : list X) :
  (∀ x, count (f x) = Z.of_nat (n x)) →
  sum_counts (f <$> l) = Z.of_nat (sum_list (n <$> l)).
Proof.
  intros Hn. induction l as [|x l IH]; [done|].
  rewrite !fmap_cons. cbn [sum_counts foldr sum_list].
  fold (sum_counts (f <$> l)). rewrite IH, Hn.
  cbn [sum_list]. unfold id. lia.
Qed.

Section Grouping.
Context {X K : Type} `{EqDecision K} (key : X → K).

Lemma group_by_keys (l : list X) :
  (group_by key l).*1 = remove_dups (key <$> l).
Proof.
  unfold group_by. rewrite <- list_fmap_compose.
  generalize (remove_dups (key <$> l)).
  intros ks. induction ks as [|k ks IH]; [done|].
  rewrite fmap_cons. by rewrite IH.
Qed.

Lemma elem_of_group_by (k : K) (g : list X) (l : list X) :
  (k, g) ∈ group_by key l ↔ k ∈ key <$> l ∧ g = filter (λ x, key x = k) l.
Proof.
  unfold group_by. rewrite list_elem_of_fmap. split.
  - intros (k' & Heq & Hk). injection Heq as -> ->.
    split; [|done]. by rewrite elem_of_remove_dups in Hk.
  - intros [Hk ->]. exists k. split; [done|]. by rewrite elem_of_remove_dups.
Qed.

(** The indicator of one key sums to one over a duplicate-free key list. *)
Lemma sum_indicator (a : K) (n : nat) (ks : list K) :
  NoDup ks → a ∈ ks →
  sum_list ((λ k, if decide (a = k) then n else 0) <$> ks) = n.
Proof.
  induction 1 as [|k ks Hk Hnd IH]; intros Ha; [by apply elem_of_nil in Ha|].
  csimpl. apply elem_of_cons in Ha as [->|Ha].
  - rewrite decide_True by done.
    assert (sum_list ((λ k0, if decide (k = k0) then n else 0) <$> ks) = 0) as ->; [|lia].
    clear IH Hnd. induction ks as [|k' ks IH]; csimpl; [done|].
    apply not_elem_of_cons in Hk as [Hne Hk].
    rewrite decide_False by done. by rewrite IH.
  - rewrite decide_False by (intros ->; done). by rewrite IH.
Qed.

(** Every row falls in exactly one group: the groups' sizes add up. *)
Lemma group_sizes (P : X → Prop) `{!∀ x, Decision (P x)} (ks : list K) (l : list X) :
  NoDup ks → (∀ x, x ∈ l → key x ∈ ks) →
  sum_list ((λ k, length (filter P (filter (λ x, key x = k) l))) <$> ks)
  = length (filter P l).
Proof.
  intros Hnd. induction l as [|x l IH]; intros Hin.
  - csimpl. clear. induction ks as [|k ks IHk]; csimpl; [done|]. by rewrite IHk.
  - assert (sum_list ((λ k, length (filter P (filter (λ y, key y = k) (x :: l)))) <$> ks)
            = sum_list ((λ k, if decide (key x = k) then (if decide (P x) then 1 else 0) else 0) <$> ks)
              + sum_list ((λ k, length (filter P (filter (λ y, key y = k) l))) <$> ks)) as ->.
    { clear. induction ks as [|k ks IHk]; csimpl; [done|].
      rewrite IHk. rewrite (filter_cons (λ y, key y = k)).
      destruct (decide (key x = k)); [|lia].
      rewrite (filter_cons P). destruct (decide (P x)); csimpl; lia. }
    rewrite IH by (intros y Hy; apply Hin; by right).
    rewrite sum_indicator by (done || apply Hin; by left).
    rewrite (filter_cons P). destruct (decide (P x)); csimpl; lia.
Qed.

End Grouping.

(** * Facts about the aggregate relation *)

Section Aggregation.
Context {D G A : Type}.
Variable h3_cell_to_boundary_wkt : Z → option string.
Variable E : engine.

#[local] Abbreviation rowT := (row D G A).
#[local] Abbreviation agg := (aggregate (D:=D) (G:=G) (A:=A) h3_cell_to_boundary_wkt).
#[local] Abbreviation agg_table :=
  (aggregate_table (D:=D) (G:=G) (A:=A) h3_cell_to_boundary_wkt E).

(** The select list of the aggregation, applied to one key. *)
Lemma aggregate_unfold (j : nat) (rs : list rowT) :
  agg j rs
  = (λ k, AggRow k (k ≫= h3_cell_to_boundary_wkt)
                 (sql_count (cell_at j) (points_in_cell j k rs)))
    <$> remove_dups (cell_at j <$> rs).
Proof.
  unfold aggregate, group_by. by rewrite <- list_fmap_compose.
Qed.

Lemma aggregate_cells (j : nat) (rs : list rowT) :
  cell <$> agg j rs = remove_dups (cell_at j <$> rs).
Proof.
  rewrite aggregate_unfold, <- list_fmap_compose.
  generalize (remove_dups (cell_at j <$> rs)). intros ks.
  induction ks as [|k ks IH]; [done|]. rewrite fmap_cons. by rewrite IH.
Qed.

Lemma elem_of_aggregate (j : nat) (rs : list rowT) (a : agg_row) :
  a ∈ agg j rs ↔
  cell a ∈ cell_at j <$> rs
  ∧ wkt a = cell a ≫= h3_cell_to_boundary_wkt
  ∧ count a = sql_count (cell_at j) (points_in_cell j (cell a) rs).
Proof.
  rewrite aggregate_unfold, list_elem_of_fmap. split.
  - intros (k & -> & Hk). rewrite elem_of_remove_dups in Hk. by simpl.
  - intros (Hk & Hw & Hc). exists (cell a). rewrite elem_of_remove_dups.
    split; [|done]. destruct a as [c w n]; simpl in *. by subst.
Qed.

Lemma elem_of_aggregate_table (j : nat) (rs : list rowT) (a : agg_row) :
  a ∈ agg_table j rs ↔ a ∈ agg j rs.
Proof. unfold aggregate_table. by rewrite group_order_perm. Qed.

(** In the group of a non-NULL cell every row counts. *)
Lemma sql_count_cell (j : nat) (z : Z) (rs : list rowT) :
  sql_count (cell_at j) (points_in_cell j (Some z) rs)
  = Z.of_nat (length (points_in_cell j (Some z) rs)).
Proof.
  unfold sql_count, points_in_cell. f_equal. f_equal.
  rewrite list_filter_filter. apply list_filter_iff.
  intros r. split; [by intros [_ ?]|]. intros Hr. split; [|done].
  rewrite Hr. by eexists.
Qed.

(** In the group of the NULL cell no row counts. *)
Lemma sql_count_null (j : nat) (rs : list rowT) :
  sql_count (cell_at j) (points_in_cell j None rs) = 0%Z.
Proof.
  unfold sql_count, points_in_cell.
  induction rs as [|r rs IH]; [done|].
  rewrite (filter_cons (λ r, cell_at j r = None)).
  destruct (decide (cell_at j r = None)) as [Hn|_]; [|done].
  rewrite filter_cons. destruct (decide _) as [[z Hz]|_]; [congruence|done].
Qed.

(** C1. Count conservation: for every resolution [j] (in particular
    0..15), the counts of the rows of the resolution-[j] aggregate relation
    add up to the number of points whose [h3_scale_j] is not NULL; when no
    [h3_scale_j] is NULL, that is the number of points. *)
Theorem count_conservation (j : nat) (rs : list rowT) :
  sum_counts (agg_table j rs) = Z.of_nat (length (tagged_points j rs))
  ∧ ((∀ r, r ∈ rs → is_Some (cell_at j r)) →
     sum_counts (agg_table j rs) = Z.of_nat (length rs)).
Proof.
  assert (sum_counts (agg_table j rs) = Z.of_nat (length (tagged_points j rs))) as Hsum.
  { unfold aggregate_table. rewrite (sum_counts_perm _ _ (group_order_perm E j _)).
    rewrite aggregate_unfold.
    rewrite (sum_counts_fmap _
      (λ k, length (filter (λ r, is_Some (cell_at j r)) (filter (λ r, cell_at j r = k) rs)))).
    - f_equal. apply (group_sizes (cell_at j)).
      + apply NoDup_remove_dups.
      + intros r Hr. rewrite elem_of_remove_dups. by apply list_elem_of_fmap_2.
    - done. }
  split; [done|]. intros Hall. rewrite Hsum. do 2 f_equal.
  unfold tagged_points. clear Hsum. induction rs as [|r rs IH]; [done|].
  rewrite filter_cons_True by (apply Hall; by left).
  f_equal. apply IH. intros r' Hr'. apply Hall. by right.
Qed.

(** C2 (amended). Aggregate rows: the cell is unique per row, there is
    exactly one row per distinct [h3_scale_j] value present among the points
    (the NULL value included), and in every row whose cell is not NULL the
    count is at least 1 and is the number of points whose [h3_scale_j] is
    that cell. *)
Theorem aggregate_rows (j : nat) (rs : list rowT) :
  NoDup (cell <$> agg_table j rs)
  ∧ (∀ c, c ∈ cell <$> agg_table j rs ↔ c ∈ cell_at j <$> rs)
  ∧ (∀ a z, a ∈ agg_table j rs → cell a = Some z →
       (1 ≤ count a)%Z
       ∧ count a = Z.of_nat (length (points_in_cell j (Some z) rs))).
Proof.
  assert (cell <$> agg_table j rs ≡ₚ remove_dups (cell_at j <$> rs)) as Hcells.
  { unfold aggregate_table. rewrite group_order_perm. by rewrite aggregate_cells. }
  split; [|split].
  - rewrite Hcells. apply NoDup_remove_dups.
  - intros c. rewrite Hcells. apply elem_of_remove_dups.
  - intros a z Ha Hz. apply elem_of_aggregate_table, elem_of_aggregate in Ha.
    destruct Ha as (Hin & _ & Hc). rewrite Hz in Hin, Hc.
    rewrite sql_count_cell in Hc. split; [|done]. rewrite Hc.
    apply list_elem_of_fmap in Hin as (r & Hr & Hin).
    assert (r ∈ points_in_cell j (Some z) rs) as Hmem
      by (unfold points_in_cell; by apply list_elem_of_filter).
    destruct (points_in_cell j (Some z) rs); [by apply elem_of_nil in Hmem|].
    simpl. lia.
Qed.

(** The NULL group: a row with a NULL cell has a NULL boundary and count 0,
    and there is such a row as soon as one point has a NULL [h3_scale_j]. *)
Lemma null_row_shape (j : nat) (rs : list rowT) (a : agg_row) :
  a ∈ agg_table j rs → cell a = None → a = AggRow None None 0.
Proof.
  intros Ha Hn. apply elem_of_aggregate_table, elem_of_aggregate in Ha.
  destruct Ha as (_ & Hw & Hc). rewrite Hn in Hw, Hc.
  rewrite sql_count_null in Hc. destruct a; simpl in *. by subst.
Qed.

Lemma null_row_present (j : nat) (rs : list rowT) :
  None ∈ cell_at j <$> rs → AggRow None None 0 ∈ agg_table j rs.
Proof.
  intros Hin. apply elem_of_aggregate_table, elem_of_aggregate. simpl.
  by rewrite sql_count_null.
Qed.

End Aggregation.

(** * Facts about the script *)

Lemma foldl_insert_lookup {V : Type} (f : nat → V) (js : list nat) (m : gmap nat V) (j : nat) :
  foldl (λ m i, <[i:=f i]> m) m js !! j
  = if decide (j ∈ js) then Some (f j) else m !! j.
Proof.
  revert m. induction js as [|i js IH]; intros m.
  - cbn [foldl]. case_decide as Hin; [by apply elem_of_nil in Hin|done].
  - cbn [foldl]. rewrite IH.
    destruct (decide (j ∈ js)) as [Hjs|Hjs], (decide (j ∈ i :: js)) as [Hc|Hc];
      rewrite elem_of_cons in Hc.
    + done.
    + tauto.
    + destruct Hc as [->|]; [apply lookup_insert_eq|done].
    + apply lookup_insert_ne. intros ->. tauto.
Qed.

Section Script.
Context {D G A : Type}.
Variable ST_Transform : G → res (option G).
Variable ST_X : G → res (option D).
Variable ST_Y : G → res (option D).
Variable h3_latlng_to_cell : D → D → nat → option Z.
Variable h3_cell_to_boundary_wkt : Z → option string.
Variable E : engine.

#[local] Abbreviation rowS := (row D G A).
#[local] Abbreviation tableS := (table D G A).
#[local] Abbreviation worldS := (world D G A).
#[local] Abbreviation cellf := (cell_of h3_latlng_to_cell).
#[local] Abbreviation tagged := (tag_row (G:=G) (A:=A) h3_latlng_to_cell).
#[local] Abbreviation setup := (setup_steps (A:=A) ST_Transform ST_X ST_Y h3_latlng_to_cell).
#[local] Abbreviation tagging := (tagging_steps (G:=G) (A:=A) h3_latlng_to_cell).
#[local] Abbreviation agg_loop := (aggregation_steps (D:=D) (G:=G) (A:=A) h3_cell_to_boundary_wkt E).
#[local] Abbreviation agg_body := (agg_steps (D:=D) (G:=G) (A:=A) h3_cell_to_boundary_wkt E).
#[local] Abbreviation agg_tbl :=
  (aggregate_table (D:=D) (G:=G) (A:=A) h3_cell_to_boundary_wkt E).

Lemma exec_app (ss1 ss2 : list (worldS → res worldS)) (w : worldS) :
  exec (ss1 ++ ss2) w = w' ← exec ss1 w; exec ss2 w'.
Proof.
  revert w. induction ss1 as [|s ss1 IH]; intros w; simpl; [done|].
  destruct (s w) as [w'|e]; simpl; [apply IH|done].
Qed.

(** ** The tagging loop *)

Lemma cell_at_tag_row (js : list nat) (r : rowS) (j : nat) :
  cell_at j (tagged js r)
  = if decide (j ∈ js) then cellf (lat r) (lon r) j else cell_at j r.
Proof.
  unfold cell_at, tag_row. simpl. rewrite foldl_insert_lookup.
  by destruct (decide (j ∈ js)).
Qed.

Lemma tag_step_ok (i : nat) (t : tableS) (w : worldS) :
  boreholes w = Some t → i ∉ h3_columns t →
  tag_step h3_latlng_to_cell i w
  = Ok (set_boreholes w (Table (h3_columns t ++ [i]) (tagged [i] <$> rows t))).
Proof.
  intros Ht Hi. unfold tag_step, with_boreholes. rewrite Ht.
  unfold add_h3_column. rewrite decide_False by done. simpl.
  unfold update_h3_column. simpl.
  rewrite decide_True by (apply elem_of_app; right; by left). simpl.
  do 3 f_equal. rewrite <- list_fmap_compose. apply list_fmap_ext.
  intros _ r _. unfold tag_row. simpl. by rewrite insert_insert_eq.
Qed.

Lemma tag_loop (js : list nat) (t : tableS) (w : worldS) :
  NoDup js → (∀ i, i ∈ js → i ∉ h3_columns t) → boreholes w = Some t →
  exec (tag_step h3_latlng_to_cell <$> js) w
  = Ok (set_boreholes w (Table (h3_columns t ++ js) (tagged js <$> rows t))).
Proof.
  revert t w. induction js as [|i js IH]; intros t w Hnd Hfresh Ht.
  - simpl. rewrite app_nil_r. destruct w as [b a f], t as [c rs]. simpl in *.
    subst. unfold set_boreholes. simpl. do 3 f_equal.
    rewrite <- (list_fmap_id rs) at 1. f_equal. apply list_fmap_ext.
    intros _ [] _. done.
  - apply NoDup_cons in Hnd as [Hi Hnd]. rewrite fmap_cons. simpl.
    rewrite (tag_step_ok i t w) by (done || apply Hfresh; by left). simpl.
    rewrite (IH (Table (h3_columns t ++ [i]) (tagged [i] <$> rows t))); [| done | | done].
    + unfold set_boreholes. simpl. rewrite <- app_assoc. simpl.
      by rewrite <- list_fmap_compose.
    + intros i' Hi'. simpl. rewrite elem_of_app, list_elem_of_singleton.
      intros [Hc| ->]; [|done]. eapply Hfresh; [|exact Hc]. by right.
Qed.

(** Running the loop again on its own result is rejected: the columns are
    there already. *)
Lemma tagging_rerun_rejected (rs : list rowS) (w : worldS) :
  boreholes w = Some (Table scales rs) → exec tagging w = Err ColumnExists.
Proof.
  intros Ht.
  assert (tag_step h3_latlng_to_cell 0 w = Err ColumnExists) as Hstep.
  { unfold tag_step, with_boreholes. rewrite Ht. unfold add_h3_column.
    cbn [h3_columns]. by rewrite decide_True by by left. }
  unfold tagging_steps, scales. rewrite fmap_cons. cbn [exec]. by rewrite Hstep.
Qed.

(** ** The normalizer and the whole set-up *)

Lemma res_mapM_length {X Y : Type} (f : X → res Y) (l : list X) (l' : list Y) :
  res_mapM f l = Ok l' → length l' = length l.
Proof.
  revert l'. induction l as [|x l IH]; intros l'; simpl.
  - by intros [= <-].
  - destruct (f x) as [y|e]; simpl; [|done].
    destruct (res_mapM f l) as [ys|e]; simpl; [|done].
    intros [= <-]. simpl. f_equal. by apply IH.
Qed.

Lemma normalizer_ok (src : list (source_row G A)) (fs : gmap nat json) (w : worldS) :
  exec (normalizer_steps ST_Transform ST_X ST_Y src) (fresh fs) = Ok w →
  ∃ rs, w = World (Some (Table [] rs)) ∅ fs ∧ length rs = length src.
Proof.
  unfold normalizer_steps, exec, fresh. simpl.
  unfold transform_geom, with_boreholes at 1. simpl.
  match goal with
  | |- context [res_mapM ?f ?l] => destruct (res_mapM f l) as [rs1|e] eqn:H1
  end; simpl; [|done].
  unfold update_lon_lat, with_boreholes. simpl.
  match goal with
  | |- context [res_mapM ?f ?l] => destruct (res_mapM f l) as [rs2|e] eqn:H2
  end; simpl; [|done].
  intros [= <-]. exists rs2. split; [done|].
  apply res_mapM_length in H1, H2.
  rewrite H2, length_fmap, H1. by rewrite length_fmap.
Qed.

Lemma scales_NoDup : NoDup scales.
Proof. apply (bool_decide_unpack _). by vm_compute. Qed.

Lemma elem_of_scales (j : nat) : j ∈ scales ↔ (j ≤ 15)%nat.
Proof.
  unfold scales. rewrite !elem_of_cons, elem_of_nil. lia.
Qed.

Lemma setup_ok (src : list (source_row G A)) (fs : gmap nat json) (w : worldS) :
  exec (setup src) (fresh fs) = Ok w →
  ∃ rs, exec (normalizer_steps ST_Transform ST_X ST_Y src) (fresh fs)
        = Ok (World (Some (Table [] rs)) ∅ fs)
        ∧ w = World (Some (Table scales (tagged scales <$> rs))) ∅ fs.
Proof.
  unfold setup_steps. rewrite exec_app.
  destruct (exec (normalizer_steps _ _ _ _) _) as [w1|e] eqn:Hn;
    cbn [mbind res_bind]; [|done].
  destruct (normalizer_ok _ _ _ Hn) as (rs & -> & _).
  rewrite exec_app. unfold tagging_steps.
  rewrite (tag_loop scales (Table [] rs)); [|apply scales_NoDup|..|done].
  - simpl. intros [= <-]. by exists rs.
  - intros i _. apply not_elem_of_nil.
Qed.

(** ** The aggregation loop *)

Lemma agg_body_trace (j : nat) (t : tableS) (fs : gmap nat json)
    (rest : list (worldS → res worldS)) :
  j ∈ h3_columns t →
  let T := agg_tbl j (rows t) in
  trace (agg_body j ++ rest) (World (Some t) ∅ fs)
  = World (Some t) ∅ fs
    :: World (Some t) {[j:=T]} fs
    :: World (Some t) {[j:=T]} (<[j:=copy_array T]> fs)
    :: World (Some t) {[j:=T]} (<[j:=copy_array T]> fs)
    :: trace rest (World (Some t) ∅ (<[j:=copy_array T]> fs)).
Proof.
  intros Hj T. unfold agg_steps. cbn [app trace].
  unfold create_agg at 1. cbn [boreholes aggs files].
  rewrite decide_True by done. rewrite lookup_empty, insert_empty.
  unfold copy_agg at 1. cbn [boreholes aggs files]. rewrite lookup_singleton_eq.
  unfold select_agg at 1. cbn [boreholes aggs files]. rewrite lookup_singleton_eq.
  unfold drop_agg at 1. cbn [boreholes aggs files]. rewrite lookup_singleton_eq.
  by rewrite delete_singleton_eq.
Qed.

Lemma agg_body_exec (j : nat) (t : tableS) (fs : gmap nat json)
    (rest : list (worldS → res worldS)) :
  j ∈ h3_columns t →
  exec (agg_body j ++ rest) (World (Some t) ∅ fs)
  = exec rest (World (Some t) ∅ (<[j:=copy_array (agg_tbl j (rows t))]> fs)).
Proof.
  intros Hj. unfold agg_steps. cbn [app exec].
  unfold create_agg at 1. cbn [boreholes aggs files].
  rewrite decide_True by done. rewrite lookup_empty, insert_empty. cbn [mbind res_bind].
  unfold copy_agg at 1. cbn [boreholes aggs files]. rewrite lookup_singleton_eq.
  cbn [mbind res_bind].
  unfold select_agg at 1. cbn [boreholes aggs files]. rewrite lookup_singleton_eq.
  cbn [mbind res_bind].
  unfold drop_agg at 1. cbn [boreholes aggs files]. rewrite lookup_singleton_eq.
  cbn [mbind res_bind]. by rewrite delete_singleton_eq.
Qed.

Lemma agg_loop_exec (js : list nat) (t : tableS) (fs : gmap nat json) :
  (∀ j, j ∈ js → j ∈ h3_columns t) →
  exec (js ≫= agg_body) (World (Some t) ∅ fs)
  = Ok (World (Some t) ∅ (exported h3_cell_to_boundary_wkt E t fs js)).
Proof.
  revert fs. induction js as [|j js IH]; intros fs Hjs; [done|].
  rewrite bind_cons, agg_body_exec by (apply Hjs; by left).
  rewrite IH; [done|]. intros j' Hj'. apply Hjs. by right.
Qed.

Lemma trace_head (ss : list (worldS → res worldS)) (w : worldS) :
  trace ss w !! 0 = Some w.
Proof. by destruct ss. Qed.

Lemma agg_loop_invariant (js : list nat) (t : tableS) (fs : gmap nat json) (w : worldS) :
  (∀ j, j ∈ js → j ∈ h3_columns t) →
  w ∈ trace (js ≫= agg_body) (World (Some t) ∅ fs) →
  boreholes w = Some t ∧ (size (aggs w) ≤ 1)%nat.
Proof.
  revert fs. induction js as [|j js IH]; intros fs Hjs Hw.
  - apply list_elem_of_singleton in Hw as ->. simpl. rewrite map_size_empty.
    split; [done|lia].
  - rewrite bind_cons, agg_body_trace in Hw by (apply Hjs; by left).
    rewrite !elem_of_cons in Hw.
    destruct Hw as [->|[->|[->|[->|Hw]]]]; simpl;
      rewrite ?map_size_empty, ?map_size_singleton; try (split; [done|lia]).
    eapply IH; [|exact Hw]. intros j' Hj'. apply Hjs. by right.
Qed.

Lemma agg_loop_trace (js : list nat) (t : tableS) (fs : gmap nat json) (k j : nat) :
  (∀ j, j ∈ js → j ∈ h3_columns t) → js !! k = Some j →
  let T := agg_tbl j (rows t) in
  let fs_k := exported h3_cell_to_boundary_wkt E t fs (take k js) in
  let tr := trace (js ≫= agg_body) (World (Some t) ∅ fs) in
  tr !! (4 * k) = Some (World (Some t) ∅ fs_k)
  ∧ tr !! (4 * k + 1) = Some (World (Some t) {[j:=T]} fs_k)
  ∧ tr !! (4 * k + 2) = Some (World (Some t) {[j:=T]} (<[j:=copy_array T]> fs_k))
  ∧ tr !! (4 * k + 3) = Some (World (Some t) {[j:=T]} (<[j:=copy_array T]> fs_k))
  ∧ tr !! (4 * k + 4) = Some (World (Some t) ∅ (<[j:=copy_array T]> fs_k)).
Proof.
  revert fs k. induction js as [|j0 js IH]; intros fs k Hjs Hk; [done|].
  cbn zeta. rewrite bind_cons, agg_body_trace by (apply Hjs; by left).
  destruct k as [|k].
  - injection Hk as ->. cbn [take]. unfold exported at 1 2 3 4 5. cbn [foldl].
    repeat split; try done. simpl. apply trace_head.
  - simpl in Hk.
    assert (∀ i, 4 * S k + i = S (S (S (S (4 * k + i))))) as Hidx by lia.
    replace (4 * S k) with (4 * S k + 0) by lia.
    rewrite !Hidx. cbn [lookup list_lookup]. rewrite Nat.add_0_r.
    cbn [take]. unfold exported. cbn [foldl].
    apply (IH _ k); [|done]. intros j' Hj'. apply Hjs. by right.
Qed.

(** ** The run as a whole *)

Lemma run_ok (src : list (source_row G A)) (fs : gmap nat json) (rs : list rowS) :
  exec (normalizer_steps ST_Transform ST_X ST_Y src) (fresh fs)
  = Ok (World (Some (Table [] rs)) ∅ fs) →
  let t := Table scales (tagged scales <$> rs) in
  exec (setup src) (fresh fs) = Ok (World (Some t) ∅ fs)
  ∧ run ST_Transform ST_X ST_Y h3_latlng_to_cell h3_cell_to_boundary_wkt E src fs
    = Ok (World (Some t) ∅ (exported h3_cell_to_boundary_wkt E t fs scales)).
Proof.
  intros Hn t.
  assert (exec (setup src) (fresh fs) = Ok (World (Some t) ∅ fs)) as Hs.
  { unfold setup_steps. rewrite exec_app, Hn. cbn [mbind res_bind].
    rewrite exec_app. unfold tagging_steps.
    rewrite (tag_loop scales (Table [] rs)); [done|apply scales_NoDup|..|done].
    intros i _. apply not_elem_of_nil. }
  split; [done|].
  unfold run, script_steps. rewrite exec_app, Hs. cbn [mbind res_bind].
  unfold aggregation_steps. by apply agg_loop_exec.
Qed.

Lemma run_inv (src : list (source_row G A)) (fs : gmap nat json) (w : worldS) :
  run ST_Transform ST_X ST_Y h3_latlng_to_cell h3_cell_to_boundary_wkt E src fs = Ok w →
  ∃ rs, exec (normalizer_steps ST_Transform ST_X ST_Y src) (fresh fs)
        = Ok (World (Some (Table [] rs)) ∅ fs)
        ∧ w = World (Some (Table scales (tagged scales <$> rs))) ∅
                (exported h3_cell_to_boundary_wkt E
                   (Table scales (tagged scales <$> rs)) fs scales).
Proof.
  unfold run, script_steps. rewrite exec_app.
  destruct (exec (setup src) (fresh fs)) as [w0|e] eqn:Hs; cbn [mbind res_bind]; [|done].
  destruct (setup_ok _ _ _ Hs) as (rs & Hn & ->).
  unfold aggregation_steps. rewrite agg_loop_exec by done.
  intros [= <-]. by exists rs.
Qed.

Lemma exported_lookup (t : tableS) (fs : gmap nat json) (js : list nat) (j : nat) :
  exported h3_cell_to_boundary_wkt E t fs js !! j
  = if decide (j ∈ js) then Some (copy_array (agg_tbl j (rows t))) else fs !! j.
Proof.
  unfold exported.
  apply (foldl_insert_lookup (λ j, copy_array (agg_tbl j (rows t)))).
Qed.

(** C3. Cell assignment: on a table without cell columns the tagging loop
    succeeds; it changes nothing but [boreholes], to which it adds exactly
    the columns [h3_scale_0 .. h3_scale_15]; every row keeps its other
    columns, and its cell at resolution [j] is [cell_of (lat, lon, j)], a
    function of the row's latitude, longitude and the resolution alone.
    Re-running an assignment on the tagged table yields the same
    identifiers: the [UPDATE] leaves the table as it is. *)
Theorem cell_assignment (t : tableS) (w : worldS) :
  boreholes w = Some t → h3_columns t = [] →
  ∃ t', exec tagging w = Ok (World (Some t') (aggs w) (files w))
    ∧ h3_columns t' = scales
    ∧ length (rows t') = length (rows t)
    ∧ (∀ k r, rows t !! k = Some r →
         ∃ r', rows t' !! k = Some r'
           ∧ attrs r' = attrs r ∧ geom r' = geom r
           ∧ lon r' = lon r ∧ lat r' = lat r
           ∧ (∀ j, (j ≤ 15)%nat →
                h3_scale r' !! j = Some (cellf (lat r) (lon r) j))
           ∧ (∀ j, (15 < j)%nat → h3_scale r' !! j = h3_scale r !! j))
    ∧ (∀ j, (j ≤ 15)%nat → update_h3_column h3_latlng_to_cell j t' = Ok t').
Proof.
  intros Ht Hc. exists (Table scales (tagged scales <$> rows t)).
  split; [|split; [done|split; [apply length_fmap|split]]].
  - unfold tagging_steps. rewrite (tag_loop scales t w); [|apply scales_NoDup|..|done].
    + by rewrite Hc.
    + intros i _. rewrite Hc. apply not_elem_of_nil.
  - intros k r Hk. exists (tagged scales r). cbn [rows].
    rewrite list_lookup_fmap, Hk. repeat split; try done.
    + intros j Hj. unfold tag_row. cbn [h3_scale].
      rewrite foldl_insert_lookup. by rewrite decide_True by by apply elem_of_scales.
    + intros j Hj. unfold tag_row. cbn [h3_scale].
      rewrite foldl_insert_lookup. rewrite decide_False; [done|].
      rewrite elem_of_scales. lia.
  - intros j Hj. unfold update_h3_column. cbn [h3_columns rows].
    rewrite decide_True by by apply elem_of_scales. do 2 f_equal.
    rewrite <- list_fmap_compose. apply list_fmap_ext. intros _ r _.
    unfold tag_row. cbn [compose attrs geom lon lat h3_scale]. f_equal.
    apply insert_id.
    rewrite foldl_insert_lookup. by rewrite decide_True by by apply elem_of_scales.
Qed.

(** C5. Empty input: on an empty point relation the script runs to its end
    and leaves, for every resolution 0..15, an artifact holding the empty
    array. *)
Theorem empty_input (fs : gmap nat json) :
  ∃ w, run (A:=A) ST_Transform ST_X ST_Y h3_latlng_to_cell
           h3_cell_to_boundary_wkt E [] fs = Ok w
       ∧ ∀ j, (j ≤ 15)%nat → files w !! j = Some (JArr []).
Proof.
  destruct (run_ok [] fs []) as [_ Hrun]; [done|].
  eexists. split; [exact Hrun|]. intros j Hj. cbn [files].
  rewrite exported_lookup, decide_True by by apply elem_of_scales.
  unfold aggregate_table. cbn [rows fmap list_fmap].
  assert (group_order E j (aggregate h3_cell_to_boundary_wkt j ([] : list rowS)) = []) as ->; [|done].
  apply Permutation_nil_r, (group_order_perm E j []).
Qed.

(** C8. Frame and sequencing of the second loop, run from the state the
    set-up leaves: in every state the loop goes through, [boreholes] is the
    tagged table the loop started with and at most one aggregate table
    exists; the iteration of the [k]-th resolution [j] starts with no
    aggregate table, creates [boreholes_h3_scale_j], writes its artifact
    while the table exists, and has dropped it when the next iteration
    starts. *)
Theorem frame_and_sequencing (src : list (source_row G A)) (fs : gmap nat json)
    (w0 : worldS) :
  exec (setup src) (fresh fs) = Ok w0 →
  let tr := trace agg_loop w0 in
  (∀ w, w ∈ tr → boreholes w = boreholes w0 ∧ (size (aggs w) ≤ 1)%nat)
  ∧ (∀ k j, scales !! k = Some j →
       ∃ t wa wb wc wd,
         boreholes w0 = Some t
         ∧ tr !! (4 * k) = Some wa ∧ aggs wa = ∅
         ∧ tr !! (4 * k + 1) = Some wb
           ∧ aggs wb = {[j:=agg_tbl j (rows t)]} ∧ files wb = files wa
         ∧ tr !! (4 * k + 2) = Some wc
           ∧ aggs wc = {[j:=agg_tbl j (rows t)]}
           ∧ files wc = <[j:=copy_array (agg_tbl j (rows t))]> (files wa)
         ∧ tr !! (4 * k + 4) = Some wd
           ∧ aggs wd = ∅ ∧ files wd = files wc).
Proof.
  intros Hs tr. destruct (setup_ok _ _ _ Hs) as (rs & _ & ->).
  set (t := Table scales (tagged scales <$> rs)) in *.
  assert (∀ j, j ∈ scales → j ∈ h3_columns t) as Hcols by done.
  split.
  - intros w Hw. by apply (agg_loop_invariant scales t fs).
  - intros k j Hk.
    destruct (agg_loop_trace scales t fs k j Hcols Hk) as (Ha & Hb & Hc & _ & Hd).
    exists t. do 4 eexists. split; [done|].
    split; [exact Ha|]. split; [done|].
    split; [exact Hb|]. split; [done|]. split; [done|].
    split; [exact Hc|]. split; [done|]. split; [done|].
    split; [exact Hd|]. by split.
Qed.

(** C9. NULL cells: if some row of the tagged table has a NULL
    [h3_scale_j], the resolution-[j] aggregate has a row with NULL cell,
    NULL boundary and count 0; it is the only row with a NULL cell, and the
    loop body writes it to the artifact as a record of two nulls and 0. *)
Theorem null_cell_exported (j : nat) (t : tableS) (fs : gmap nat json) :
  j ∈ h3_columns t → None ∈ cell_at j <$> rows t →
  AggRow None None 0 ∈ agg_tbl j (rows t)
  ∧ (∀ a, a ∈ agg_tbl j (rows t) → cell a = None → a = AggRow None None 0)
  ∧ ∃ items,
      exec (agg_body j) (World (Some t) ∅ fs)
      = Ok (World (Some t) ∅ (<[j:=JArr items]> fs))
      ∧ JObj [("cell", JNull); ("wkt", JNull); ("count", JInt 0)] ∈ items.
Proof.
  intros Hj Hnull.
  pose proof (null_row_present h3_cell_to_boundary_wkt E j (rows t) Hnull) as Hrow.
  split; [done|]. split; [apply null_row_shape|].
  exists (record_to_json <$> agg_tbl j (rows t)). split.
  - rewrite <- (app_nil_r (agg_body j)). by rewrite agg_body_exec.
  - by apply (list_elem_of_fmap_2 record_to_json) in Hrow.
Qed.

End Script.

(** * Two runs *)

Section Determinism.
Context {D G A : Type}.
Variable ST_Transform : G → res (option G).
Variable ST_X : G → res (option D).
Variable ST_Y : G → res (option D).
Variable h3_latlng_to_cell : D → D → nat → option Z.
Variable h3_cell_to_boundary_wkt : Z → option string.

#[local] Abbreviation run_with :=
  (run (A:=A) ST_Transform ST_X ST_Y h3_latlng_to_cell h3_cell_to_boundary_wkt).

(** The normalizer does not look at the export directory. *)
Lemma normalizer_frame (src : list (source_row G A)) (fs fs' : gmap nat json)
    (rs : list (row D G A)) :
  exec (normalizer_steps ST_Transform ST_X ST_Y src) (fresh fs)
  = Ok (World (Some (Table [] rs)) ∅ fs) →
  exec (normalizer_steps ST_Transform ST_X ST_Y src) (fresh fs')
  = Ok (World (Some (Table [] rs)) ∅ fs').
Proof.
  unfold normalizer_steps, exec, fresh. simpl.
  unfold transform_geom. unfold with_boreholes at 1 2. simpl.
  match goal with
  | |- context [res_mapM ?f ?l] => destruct (res_mapM f l) as [rs1|e] eqn:H1
  end; simpl; [|done].
  unfold update_lon_lat, with_boreholes. simpl.
  match goal with
  | |- context [res_mapM ?f ?l] => destruct (res_mapM f l) as [rs2|e] eqn:H2
  end; simpl; [|done].
  by intros [= <-].
Qed.

(** C4. Determinism: if a run succeeds, then a second run on the same
    input succeeds as well, whatever order the engine emits groups in and
    whatever the export directory held before; for every resolution 0..15
    the two artifacts hold the same (cell, boundary, count) records up to
    the order of the rows. *)
Theorem determinism (E1 E2 : engine) (src : list (source_row G A))
    (fs1 fs2 : gmap nat json) (w1 : world D G A) :
  run_with E1 src fs1 = Ok w1 →
  ∃ w2, run_with E2 src fs2 = Ok w2
    ∧ ∀ j, (j ≤ 15)%nat →
        ∃ l1 l2, files w1 !! j = Some (copy_array l1)
               ∧ files w2 !! j = Some (copy_array l2)
               ∧ l1 ≡ₚ l2.
Proof.
  intros H1. apply run_inv in H1 as (rs & Hn & ->).
  apply (normalizer_frame _ _ fs2) in Hn.
  destruct (run_ok ST_Transform ST_X ST_Y h3_latlng_to_cell h3_cell_to_boundary_wkt
              E2 src fs2 rs Hn) as [_ H2].
  eexists. split; [exact H2|]. intros j Hj. cbn [files].
  rewrite !exported_lookup, !decide_True by by apply elem_of_scales.
  do 2 eexists. split; [done|]. split; [done|].
  unfold aggregate_table. by rewrite !group_order_perm.
Qed.

End Determinism.

(** * Nesting *)

(** If [g] is determined by [f] on the elements of a list, the list has at
    most as many distinct [g]-values as distinct [f]-values. *)
Lemma distinct_values_le {X K1 K2 : Type} `{EqDecision K1, EqDecision K2}
    (f : X → K1) (g : X → K2) (l : list X) :
  (∀ x y, x ∈ l → y ∈ l → f x = f y → g x = g y) →
  length (remove_dups (g <$> l)) ≤ length (remove_dups (f <$> l)).
Proof.
  induction l as [|x l IH]; intros Hdep; [done|].
  assert (length (remove_dups (g <$> l)) ≤ length (remove_dups (f <$> l))) as IH'.
  { apply IH. intros y z Hy Hz. apply Hdep; by right. }
  rewrite !fmap_cons. cbn [remove_dups].
  destruct (decide_rel elem_of (g x) (g <$> l)) as [Hg|Hg];
    destruct (decide_rel elem_of (f x) (f <$> l)) as [Hf|Hf];
    cbn [length]; try lia.
  exfalso. apply Hg.
  apply list_elem_of_fmap in Hf as (y & Hxy & Hy).
  apply list_elem_of_fmap. exists y. split; [|done].
  apply Hdep; [by left|by right|done].
Qed.

(** Among the values of a partial function: if [g] is determined by [f]
    and defined only where [f] is, there are at most as many distinct
    [g]-values as distinct [f]-values. *)
Lemma distinct_somes_le {X K1 K2 : Type} `{EqDecision K1, EqDecision K2}
    (f : X → option K1) (g : X → option K2) (l : list X) :
  (∀ x y, x ∈ l → y ∈ l → f x = f y → g x = g y) →
  (∀ x, x ∈ l → is_Some (g x) → is_Some (f x)) →
  length (remove_dups (omap g l)) ≤ length (remove_dups (omap f l)).
Proof.
  induction l as [|x l IH]; intros Hdep Hdef; [done|].
  assert (length (remove_dups (omap g l)) ≤ length (remove_dups (omap f l))) as IH'.
  { apply IH; [intros y z Hy Hz; apply Hdep; by right|].
    intros y Hy. apply Hdef. by right. }
  assert (∀ (K : Type) (H : EqDecision K) (a : K) (k : list K),
            length (remove_dups k) ≤ length (remove_dups (a :: k))) as Hgrow.
  { intros K H a k. cbn [remove_dups]. destruct (decide_rel elem_of a k); simpl; lia. }
  cbn [omap list_omap]. fold (omap g l). fold (omap f l).
  destruct (g x) as [v|] eqn:Hgx.
  - destruct (Hdef x) as [u Hfx]; [by left|by eexists|]. rewrite Hfx.
    cbn [remove_dups].
    destruct (decide_rel elem_of v (omap g l)) as [Hv|Hv];
      destruct (decide_rel elem_of u (omap f l)) as [Hu|Hu];
      cbn [length]; try lia.
    exfalso. apply Hv. apply list_elem_of_omap in Hu as (y & Hy & Hfy).
    apply list_elem_of_omap. exists y. split; [done|].
    rewrite <- Hgx. symmetry. apply Hdep; [by left|by right|congruence].
  - destruct (f x) as [u|]; [|done].
    etrans; [exact IH'|]. apply Hgrow.
Qed.

Lemma aggregate_table_length {D G A : Type} (wktf : Z → option string)
    (E : engine) (j : nat) (rs : list (row D G A)) :
  length (aggregate_table wktf E j rs) = length (remove_dups (cell_at j <$> rs)).
Proof.
  unfold aggregate_table. rewrite (Permutation_length (group_order_perm E j _)).
  rewrite aggregate_unfold. apply length_fmap.
Qed.

Lemma distinct_cells_aggregate {D G A : Type} (wktf : Z → option string)
    (E : engine) (j : nat) (rs : list (row D G A)) :
  distinct_cells (aggregate_table wktf E j rs)
  = length (remove_dups (omap (cell_at j) rs)).
Proof.
  unfold distinct_cells.
  apply Permutation_length, NoDup_Permutation; try apply NoDup_remove_dups.
  intros z. rewrite !elem_of_remove_dups, !list_elem_of_omap. split.
  - intros (a & Ha & Hz).
    apply elem_of_aggregate_table, elem_of_aggregate in Ha as (Hin & _).
    rewrite Hz in Hin. apply list_elem_of_fmap in Hin as (r & Hr & Hin).
    by exists r.
  - intros (r & Hr & Hz).
    exists (AggRow (Some z) (Some z ≫= wktf)
                   (sql_count (cell_at j) (points_in_cell j (Some z) rs))).
    split; [|done]. apply elem_of_aggregate_table, elem_of_aggregate.
    split; [|done]. cbn [cell]. rewrite <- Hz. by apply list_elem_of_fmap_2.
Qed.

Section Nesting.
Context {D G A : Type}.
Variable ST_Transform : G → res (option G).
Variable ST_X : G → res (option D).
Variable ST_Y : G → res (option D).
Variable h3_latlng_to_cell : D → D → nat → option Z.
Variable h3_cell_to_boundary_wkt : Z → option string.



End Nesting.

Section Growth.
Context {D G A : Type}.
Variable h3_cell_to_boundary_wkt : Z → option string.

(** C6 (amended). Cell growth where the data are nested: over a point
    relation in which any two points with the same [h3_scale_(j+1)] have
    the same [h3_scale_j], the resolution [j + 1] aggregate has at least
    as many rows (distinct cell values, NULL counted once) as the
    resolution [j] aggregate; if moreover no point has a cell at
    resolution [j] without having one at resolution [j + 1], it has at
    least as many distinct cells. *)
Theorem cell_growth_where_nested (E : engine) (j : nat) (rs : list (row D G A)) :
  (∀ p q, p ∈ rs → q ∈ rs →
     cell_at (S j) p = cell_at (S j) q → cell_at j p = cell_at j q) →
  length (aggregate_table h3_cell_to_boundary_wkt E j rs)
  ≤ length (aggregate_table h3_cell_to_boundary_wkt E (S j) rs)
  ∧ ((∀ p, p ∈ rs → cell_at (S j) p = None → cell_at j p = None) →
     distinct_cells (aggregate_table h3_cell_to_boundary_wkt E j rs)
     ≤ distinct_cells (aggregate_table h3_cell_to_boundary_wkt E (S j) rs)).
Proof.
  intros Hdep. split.
  - rewrite !aggregate_table_length. by apply distinct_values_le.
  - intros Hnull. rewrite !distinct_cells_aggregate.
    apply distinct_somes_le; [done|].
    intros p Hp [c Hc]. destruct (cell_at (S j) p) as [c'|] eqn:Hf; [by eexists|].
    rewrite (Hnull p Hp Hf) in Hc. done.
Qed.

End Growth.

(** * The staleness check *)

Section StalenessFacts.
Variable T : Type.
Variable fromtimestamp : T → Z.

(** C10. The staleness check answers [True] for every path that does not
    exist, and for an existing path exactly when its modification time is
    strictly earlier than the current time minus 14 days; hence [main]
    downloads whenever the shapefile is missing. *)
Theorem staleness_check (fs : gmap string T) (now : Z) (filepath : string) :
  (fs !! filepath = None →
     is_file_older_than_two_weeks T fromtimestamp fs now filepath = true)
  ∧ (∀ mtime, fs !! filepath = Some mtime →
       (is_file_older_than_two_weeks T fromtimestamp fs now filepath = true
        ↔ (fromtimestamp mtime < now - 14 * 24 * 60 * 60 * 1000000)%Z))
  ∧ (fs !! shapefile_path = None →
       Download borehole_url zip_file ∈ main T fromtimestamp fs now).
Proof.
  split; [|split].
  - intros Hmiss. unfold is_file_older_than_two_weeks. by rewrite Hmiss.
  - intros mtime Hm. unfold is_file_older_than_two_weeks. rewrite Hm. cbn zeta.
    rewrite bool_decide_eq_true. unfold timedelta_weeks. lia.
  - intros Hmiss. unfold main, is_file_older_than_two_weeks. rewrite Hmiss.
    apply elem_of_app. right. by left.
Qed.

End StalenessFacts.

(** * The example instance *)

(** The set-up turns [edge_boreholes] into [edge_tagged]. *)
Lemma edge_setup :
  exec (setup_steps strip_transform strip_x strip_y edge_index edge_boreholes)
       (fresh ∅)
  = Ok (World (Some edge_tagged) ∅ ∅).
Proof. vm_compute. reflexivity. Qed.

(** C6, as the specification words it, fails on the table the script makes
    of [edge_boreholes]: the two boreholes lie in two cells at resolution 5
    and in one at resolution 6. *)
Lemma cell_growth_fails :
  exec (setup_steps strip_transform strip_x strip_y edge_index edge_boreholes)
       (fresh ∅)
  = Ok (World (Some edge_tagged) ∅ ∅)
  ∧ ¬ growth_as_specified strip_wkt in_order (rows edge_tagged).
Proof.
  split; [exact edge_setup|]. intros Hgrow.
  assert (5 < 15) as H5 by lia. apply Hgrow in H5.
  assert (distinct_cells (aggregate_table strip_wkt in_order 5 (rows edge_tagged)) = 2)
    as H2 by (vm_compute; reflexivity).
  assert (distinct_cells (aggregate_table strip_wkt in_order 6 (rows edge_tagged)) = 1)
    as H1 by (vm_compute; reflexivity).
  rewrite H2, H1 in H5. lia.
Qed.


(** The set-up turns [three_boreholes] into [three_tagged]. *)
Lemma three_setup :
  exec (setup_steps strip_transform strip_x strip_y strip_index three_boreholes)
       (fresh ∅)
  = Ok (World (Some three_tagged) ∅ ∅).
Proof. vm_compute. reflexivity. Qed.

(** C2, as the specification words it, fails on the table the script makes
    of [three_boreholes]: the borehole without geometry gets a NULL cell,
    and the row of the NULL cell has count 0. *)
Lemma rows_as_specified_fails :
  exec (setup_steps strip_transform strip_x strip_y strip_index three_boreholes)
       (fresh ∅)
  = Ok (World (Some three_tagged) ∅ ∅)
  ∧ ¬ rows_as_specified 0 (rows three_tagged)
        (aggregate_table strip_wkt in_order 0 (rows three_tagged)).
Proof.
  split; [exact three_setup|].
  intros (_ & _ & Hcount).
  destruct (Hcount (AggRow None None 0)) as [Hge _].
  - assert (aggregate_table strip_wkt in_order 0 (rows three_tagged)
            = [AggRow None None 0; AggRow (Some 16%Z) (Some "POLYGON") 2]) as ->
      by (vm_compute; reflexivity).
    by left.
  - simpl in Hge. lia.
Qed.

(** ** The theorems at the example *)

Lemma cell_assignment_witness :
  let t := Table [] three_rows in
  let w := World (Some t) ∅ ∅ in
  boreholes w = Some t ∧ h3_columns t = []
  ∧ ∃ t', exec (tagging_steps strip_index) w
          = Ok (World (Some t') (aggs w) (files w))
    ∧ h3_columns t' = scales
    ∧ length (rows t') = length (rows t)
    ∧ (∀ k r, rows t !! k = Some r →
         ∃ r', rows t' !! k = Some r'
           ∧ attrs r' = attrs r ∧ geom r' = geom r
           ∧ lon r' = lon r ∧ lat r' = lat r
           ∧ (∀ j, j ≤ 15 →
                h3_scale r' !! j = Some (cell_of strip_index (lat r) (lon r) j))
           ∧ (∀ j, 15 < j → h3_scale r' !! j = h3_scale r !! j))
    ∧ (∀ j, j ≤ 15 → update_h3_column strip_index j t' = Ok t').
Proof.
  intros t w. split; [reflexivity|]. split; [reflexivity|].
  apply (cell_assignment strip_index t w); reflexivity.
Defined.

Lemma determinism_witness :
  let w1 := World (Some three_tagged) ∅
              (exported strip_wkt in_order three_tagged ∅ scales) in
  run strip_transform strip_x strip_y strip_index strip_wkt in_order
      three_boreholes ∅ = Ok w1
  ∧ ∃ w2, run strip_transform strip_x strip_y strip_index strip_wkt reversed
              three_boreholes (files w1) = Ok w2
    ∧ ∀ j, j ≤ 15 →
        ∃ l1 l2, files w1 !! j = Some (copy_array l1)
               ∧ files w2 !! j = Some (copy_array l2)
               ∧ l1 ≡ₚ l2.
Proof.
  intros w1.
  assert (run strip_transform strip_x strip_y strip_index strip_wkt in_order
              three_boreholes ∅ = Ok w1) as Hrun by (vm_compute; reflexivity).
  split; [exact Hrun|].
  exact (determinism strip_transform strip_x strip_y strip_index strip_wkt
           in_order reversed three_boreholes ∅ (files w1) w1 Hrun).
Defined.

Lemma cell_growth_where_nested_witness :
  (∀ p q, p ∈ rows three_tagged → q ∈ rows three_tagged →
     cell_at 15 p = cell_at 15 q → cell_at 14 p = cell_at 14 q)
  ∧ length (aggregate_table strip_wkt reversed 14 (rows three_tagged))
    ≤ length (aggregate_table strip_wkt reversed 15 (rows three_tagged))
  ∧ ((∀ p, p ∈ rows three_tagged → cell_at 15 p = None → cell_at 14 p = None) →
     distinct_cells (aggregate_table strip_wkt reversed 14 (rows three_tagged))
     ≤ distinct_cells (aggregate_table strip_wkt reversed 15 (rows three_tagged))).
Proof.
  assert (∀ p q, p ∈ rows three_tagged → q ∈ rows three_tagged →
            cell_at 15 p = cell_at 15 q → cell_at 14 p = cell_at 14 q) as Hdep.
  { assert (Forall (λ p, Forall (λ q : row Z (Z * Z) string,
              cell_at 15 p = cell_at 15 q → cell_at 14 p = cell_at 14 q)
              (rows three_tagged)) (rows three_tagged)) as Hall.
    { unfold three_tagged, three_rows. cbn [rows fmap list_fmap].
      repeat (apply Forall_cons; split); try apply Forall_nil;
        vm_compute; first [exact I | congruence]. }
    intros p q Hp Hq. rewrite Forall_forall in Hall.
    specialize (Hall p Hp). rewrite Forall_forall in Hall. by apply Hall. }
  split; [exact Hdep|].
  exact (cell_growth_where_nested strip_wkt reversed 14 (rows three_tagged) Hdep).
Defined.


Lemma frame_and_sequencing_witness :
  let w0 := World (Some three_tagged) ∅ (∅ : gmap nat json) in
  let tr := trace (aggregation_steps strip_wkt in_order) w0 in
  exec (setup_steps strip_transform strip_x strip_y strip_index three_boreholes)
       (fresh ∅) = Ok w0
  ∧ (∀ w, w ∈ tr → boreholes w = boreholes w0 ∧ size (aggs w) ≤ 1)
  ∧ (∀ k j, scales !! k = Some j →
       ∃ t wa wb wc wd,
         boreholes w0 = Some t
         ∧ tr !! (4 * k) = Some wa ∧ aggs wa = ∅
         ∧ tr !! (4 * k + 1) = Some wb
           ∧ aggs wb = {[j:=aggregate_table strip_wkt in_order j (rows t)]}
           ∧ files wb = files wa
         ∧ tr !! (4 * k + 2) = Some wc
           ∧ aggs wc = {[j:=aggregate_table strip_wkt in_order j (rows t)]}
           ∧ files wc
             = <[j:=copy_array (aggregate_table strip_wkt in_order j (rows t))]>
                 (files wa)
         ∧ tr !! (4 * k + 4) = Some wd
           ∧ aggs wd = ∅ ∧ files wd = files wc).
Proof.
  intros w0 tr. split; [exact three_setup|].
  exact (frame_and_sequencing strip_transform strip_x strip_y strip_index
           strip_wkt in_order three_boreholes ∅ w0 three_setup).
Defined.

Lemma null_cell_exported_witness :
  0 ∈ h3_columns three_tagged
  ∧ None ∈ cell_at 0 <$> rows three_tagged
  ∧ AggRow None None 0 ∈ aggregate_table strip_wkt in_order 0 (rows three_tagged)
  ∧ (∀ a, a ∈ aggregate_table strip_wkt in_order 0 (rows three_tagged) →
          cell a = None → a = AggRow None None 0)
  ∧ ∃ items,
      exec (agg_steps strip_wkt in_order 0) (World (Some three_tagged) ∅ ∅)
      = Ok (World (Some three_tagged) ∅ (<[0:=JArr items]> ∅))
      ∧ JObj [("cell", JNull); ("wkt", JNull); ("count", JInt 0)] ∈ items.
Proof.
  assert (0 ∈ h3_columns three_tagged) as Hcol by (by left).
  assert (None ∈ cell_at 0 <$> rows three_tagged) as Hnull by (right; by left).
  split; [exact Hcol|]. split; [exact Hnull|].
  exact (null_cell_exported strip_wkt in_order 0 three_tagged ∅ Hcol Hnull).
Defined.

(** The scenario of the specification at the example: two boreholes in one
    cell at resolution 0 and in two cells at resolution 15. *)
Example two_boreholes_scenario :
  ∃ w t, exec (setup_steps strip_transform strip_x strip_y strip_index two_boreholes)
              (fresh ∅) = Ok w
    ∧ boreholes w = Some t
    ∧ aggregate_table strip_wkt in_order 0 (rows t)
      = [AggRow (Some 16%Z) (Some "POLYGON") 2]
    ∧ aggregate_table strip_wkt in_order 15 (rows t)
      = [AggRow (Some 640015%Z) (Some "POLYGON") 1;
         AggRow (Some 640031%Z) (Some "POLYGON") 1].
Proof.
  do 2 eexists. split; [vm_compute; reflexivity|].
  split; [reflexivity|]. split; vm_compute; reflexivity.
Qed.

(** * The script, row by row *)

Lemma res_mapM_Forall2 {X Y : Type} (f : X → res Y) (l : list X) (l' : list Y) :
  res_mapM f l = Ok l' ↔ Forall2 (λ x y, f x = Ok y) l l'.
Proof.
  revert l'. induction l as [|x l IH]; intros l'; simpl.
  - split; [intros [= <-]; constructor|]. intros H. by apply Forall2_nil_inv_l in H as ->.
  - split.
    + destruct (f x) as [y|e] eqn:Hx; simpl; [|done].
      destruct (res_mapM f l) as [ys|e] eqn:Hl; simpl; [|done].
      intros [= <-]. constructor; [done|]. by apply IH.
    + intros H. apply Forall2_cons_inv_l in H as (y & ys & Hy & Hys & ->).
      rewrite Hy. simpl. apply IH in Hys. by rewrite Hys.
Qed.

Section RowByRow.
Context {D G A : Type}.
Variable ST_Transform : G → res (option G).
Variable ST_X : G → res (option D).
Variable ST_Y : G → res (option D).
Variable h3_latlng_to_cell : D → D → nat → option Z.
Variable h3_cell_to_boundary_wkt : Z → option string.

#[local] Abbreviation norm := (normalized (A:=A) ST_Transform ST_X ST_Y).
#[local] Abbreviation norm_steps := (normalizer_steps (A:=A) ST_Transform ST_X ST_Y).
#[local] Abbreviation run_on :=
  (run (A:=A) ST_Transform ST_X ST_Y h3_latlng_to_cell h3_cell_to_boundary_wkt).

(** The four statements of the normalizer, read row by row. *)
Lemma normalizer_rows (src : list (source_row G A)) (fs : gmap nat json)
    (rs : list (row D G A)) :
  exec (norm_steps src) (fresh fs) = Ok (World (Some (Table [] rs)) ∅ fs)
  ↔ Forall2 norm src rs.
Proof.
  unfold normalizer_steps, exec, fresh. simpl.
  unfold transform_geom. unfold with_boreholes at 1. simpl.
  match goal with
  | |- context [res_mapM ?f ?l] => destruct (res_mapM f l) as [rs1|e] eqn:H1
  end; simpl.
  - unfold update_lon_lat, with_boreholes. simpl.
    apply res_mapM_Forall2, Forall2_fmap_l in H1.
    match goal with
    | |- context [res_mapM ?f ?l] => destruct (res_mapM f l) as [rs2|e] eqn:H2
    end; simpl.
    + apply res_mapM_Forall2, Forall2_fmap_l in H2.
      assert (Forall2 norm src rs2) as Hn.
      { revert rs2 H2. induction H1 as [|s r1 src rs1 Hs _ IH]; intros rs2 H2.
        - apply Forall2_nil_inv_l in H2 as ->. constructor.
        - apply Forall2_cons_inv_l in H2 as (r2 & rs2' & Hr & Hrs & ->).
          constructor; [|by apply IH]. simpl in Hs, Hr.
          destruct (sql_call ST_Transform (src_geom s)) as [g|e] eqn:Hg;
            simpl in Hs; [|done].
          injection Hs as <-. simpl in Hr.
          destruct (sql_call ST_X g) as [x|e] eqn:Hx; simpl in Hr; [|done].
          destruct (sql_call ST_Y g) as [y|e] eqn:Hy; simpl in Hr; [|done].
          injection Hr as <-. by repeat split. }
      split; [intros [= ?]; by subst|]. intros Hrs.
      assert (rs2 = rs) as ->; [|done].
      clear H1 H2. revert rs Hrs. induction Hn as [|s r src rs2 Hs _ IH]; intros rs Hrs.
      * by apply Forall2_nil_inv_l in Hrs as ->.
      * apply Forall2_cons_inv_l in Hrs as (r' & rs' & Hr' & Hrs' & ->).
        rewrite (IH rs' Hrs'). assert (r = r') as ->; [|done].
        destruct Hs as (Ha & Hg & Hx & Hy & Hh), Hr' as (Ha' & Hg' & Hx' & Hy' & Hh').
        destruct r as [a g x y h], r' as [a' g' x' y' h']. simpl in *.
        assert (g = g') by congruence. subst g'.
        assert (x = x') by congruence. assert (y = y') by congruence.
        congruence.
    + split; [done|]. intros Hrs. exfalso.
      assert (∃ rs2, res_mapM
                (λ r : row D G A,
                   x ← sql_call ST_X (geom r); y ← sql_call ST_Y (geom r);
                   Ok (Row (attrs r) (geom r) x y (h3_scale r)))
                ((λ r : row D G A, Row (attrs r) (geom r) None None (h3_scale r)) <$> rs1)
              = Ok rs2) as [rs2 Hrs2]; [|congruence].
      clear H2. exists rs. apply res_mapM_Forall2, Forall2_fmap_l.
      revert rs Hrs. induction H1 as [|s r1 src rs1 Hs _ IH]; intros rs Hrs.
      * apply Forall2_nil_inv_l in Hrs as ->. constructor.
      * apply Forall2_cons_inv_l in Hrs as (r & rs' & Hr & Hrs' & ->).
        constructor; [|by apply IH]. simpl in Hs |- *.
        destruct Hr as (Ha & Hg & Hx & Hy & Hh). rewrite Hg in Hs. simpl in Hs.
        injection Hs as <-. simpl. rewrite Hx, Hy. simpl.
        destruct r; simpl in *. by subst.
  - split; [done|]. intros Hrs. exfalso.
    assert (∃ rs1, res_mapM
              (λ r : row D G A,
                 g ← sql_call ST_Transform (geom r);
                 Ok (Row (attrs r) g (lon r) (lat r) (h3_scale r)))
              ((λ s : source_row G A, Row (src_attrs s) (src_geom s) None None ∅) <$> src)
            = Ok rs1) as [rs1 Hrs1]; [|congruence].
    clear H1. exists ((λ r : row D G A, Row (attrs r) (geom r) None None ∅) <$> rs).
    apply res_mapM_Forall2, Forall2_fmap_l, Forall2_fmap_r.
    eapply Forall2_impl; [exact Hrs|]. intros s r (Ha & Hg & _). simpl.
    rewrite Hg. simpl. by rewrite Ha.
Qed.

(** X2. After a successful run the rows of [boreholes] are the features of
    the source, one for one and in the same order: the attributes are kept,
    the geometry is the transformed one, [lon] and [lat] are read off it,
    and the cell of every resolution 0..15 is computed from that row's
    [lat] and [lon].  A feature without geometry has NULL in all of them. *)
Theorem tagged_rows_from_source (E : engine) (src : list (source_row G A))
    (fs : gmap nat json) (w : world D G A) :
  run_on E src fs = Ok w →
  ∃ t, boreholes w = Some t ∧ h3_columns t = scales
    ∧ Forall2 (λ s r,
         attrs r = src_attrs s
         ∧ sql_call ST_Transform (src_geom s) = Ok (geom r)
         ∧ sql_call ST_X (geom r) = Ok (lon r)
         ∧ sql_call ST_Y (geom r) = Ok (lat r)
         ∧ (∀ j, j ≤ 15 →
              cell_at j r = cell_of h3_latlng_to_cell (lat r) (lon r) j)
         ∧ (src_geom s = None →
              geom r = None ∧ lon r = None ∧ lat r = None
              ∧ ∀ j, cell_at j r = None))
       src (rows t).
Proof.
  intros Hrun. apply run_inv in Hrun as (rs & Hn & ->).
  apply normalizer_rows in Hn. eexists. split; [done|]. split; [done|].
  cbn [rows]. apply Forall2_fmap_r. eapply Forall2_impl; [exact Hn|].
  intros s r (Ha & Hg & Hx & Hy & Hh).
  assert (∀ j, cell_at j (tag_row h3_latlng_to_cell scales r)
               = if decide (j ∈ scales)
                 then cell_of h3_latlng_to_cell (lat r) (lon r) j else None) as Hcell.
  { intros j. rewrite cell_at_tag_row. destruct (decide (j ∈ scales)); [done|].
    unfold cell_at. by rewrite Hh, lookup_empty. }
  cbn [tag_row attrs geom lon lat].
  split; [done|]. split; [done|]. split; [done|]. split; [done|]. split.
  - intros j Hj. rewrite Hcell. by rewrite decide_True by by apply elem_of_scales.
  - intros Hnone. rewrite Hnone in Hg. simpl in Hg. injection Hg as Hg.
    rewrite <- Hg in Hx, Hy. simpl in Hx, Hy.
    injection Hx as Hx. injection Hy as Hy.
    split; [done|]. split; [done|]. split; [done|].
    intros j. rewrite Hcell. destruct (decide (j ∈ scales)); [|done].
    by rewrite <- Hy.
Qed.

(** ** What the run leaves behind *)

Lemma trace_preserved (I : world D G A → Prop)
    (ss : list (world D G A → res (world D G A))) (w : world D G A) :
  Forall (λ s, ∀ w1 w2, I w1 → s w1 = Ok w2 → I w2) ss → I w →
  ∀ w', w' ∈ trace ss w → I w'.
Proof.
  intros Hss. revert w. induction Hss as [|s ss Hs _ IH]; intros w Hw w' Hin.
  - apply list_elem_of_singleton in Hin as ->. done.
  - cbn [trace] in Hin. apply elem_of_cons in Hin as [->|Hin]; [done|].
    destruct (s w) as [w2|e] eqn:Hsw; [|by apply elem_of_nil in Hin].
    apply (IH w2); [by eapply Hs|done].
Qed.

Lemma trace_app_err (ss1 ss2 : list (world D G A → res (world D G A)))
    (w : world D G A) (e : error) :
  exec ss1 w = Err e → trace (ss1 ++ ss2) w = trace ss1 w.
Proof.
  revert w. induction ss1 as [|s ss1 IH]; intros w; [done|].
  cbn [app exec trace]. destruct (s w) as [w'|e']; cbn [mbind res_bind]; [|done].
  intros He. by rewrite IH.
Qed.

Lemma with_boreholes_frame (f : table D G A → res (table D G A))
    (w w' : world D G A) :
  with_boreholes f w = Ok w' → files w' = files w ∧ aggs w' = aggs w.
Proof.
  unfold with_boreholes. destruct (boreholes w) as [t|]; [|done].
  destruct (f t) as [t'|e]; simpl; [|done]. by intros [= <-].
Qed.

(** No statement of the set-up touches the export directory or the
    aggregate tables. *)
Lemma setup_frame (src : list (source_row G A)) (fs : gmap nat json)
    (w : world D G A) :
  w ∈ trace (setup_steps ST_Transform ST_X ST_Y h3_latlng_to_cell src) (fresh fs) →
  files w = fs ∧ aggs w = ∅.
Proof.
  apply (trace_preserved (λ w, files w = fs ∧ aggs w = ∅)); [|done].
  assert (∀ f : table D G A → res (table D G A),
            ∀ w1 w2 : world D G A, files w1 = fs ∧ aggs w1 = ∅ →
              with_boreholes f w1 = Ok w2 → files w2 = fs ∧ aggs w2 = ∅) as Hwb.
  { intros f w1 w2 [Hf Ha] Hstep.
    apply with_boreholes_frame in Hstep as [-> ->]. done. }
  apply Forall_forall. intros s Hs.
  unfold setup_steps, normalizer_steps, tagging_steps in Hs.
  rewrite !elem_of_app, !elem_of_cons, list_elem_of_fmap in Hs.
  destruct Hs as [[->|[->|[->|[->|Hs]]]] | [(i & -> & _) | [->|Hs]]];
    try (by apply Hwb); try (by apply elem_of_nil in Hs).
  - intros w1 w2 [Hf Ha]. unfold create_boreholes.
    destruct (boreholes w1); [done|]. by intros [= <-].
  - intros w1 w2 HI. unfold select_boreholes.
    destruct (boreholes w1); [|done]. by intros [= <-].
Qed.

(** X3. A successful run leaves no aggregate table behind; every artifact
    other than the sixteen is as it was; and artifact [j], for [j] in
    0..15, is the array of the rows of the resolution-[j] aggregate of the
    final [boreholes] table, whatever the file held before. *)
Theorem run_final_state (E : engine) (src : list (source_row G A))
    (fs : gmap nat json) (w : world D G A) :
  run_on E src fs = Ok w →
  aggs w = ∅
  ∧ (∀ j, 15 < j → files w !! j = fs !! j)
  ∧ ∃ t, boreholes w = Some t
      ∧ ∀ j, j ≤ 15 →
          files w !! j
          = Some (copy_array (aggregate_table h3_cell_to_boundary_wkt E j (rows t))).
Proof.
  intros Hrun. apply run_inv in Hrun as (rs & _ & ->). cbn [aggs files boreholes].
  split; [done|]. split.
  - intros j Hj. rewrite exported_lookup, decide_False; [done|].
    rewrite elem_of_scales. lia.
  - eexists. split; [done|]. intros j Hj.
    by rewrite exported_lookup, decide_True by by apply elem_of_scales.
Qed.

(** X4. A run that fails has written nothing: in every state it went
    through, the export directory is as it was before the run and no
    aggregate table exists. *)
Theorem failed_run_writes_nothing (E : engine) (src : list (source_row G A))
    (fs : gmap nat json) (e : error) (w : world D G A) :
  run_on E src fs = Err e →
  w ∈ trace (script_steps ST_Transform ST_X ST_Y h3_latlng_to_cell
               h3_cell_to_boundary_wkt E src) (fresh fs) →
  files w = fs ∧ aggs w = ∅.
Proof.
  unfold run, script_steps. intros Hrun.
  destruct (exec (setup_steps ST_Transform ST_X ST_Y h3_latlng_to_cell src) (fresh fs))
    as [w0|e0] eqn:Hs.
  - exfalso. rewrite exec_app, Hs in Hrun. cbn [mbind res_bind] in Hrun.
    apply setup_ok in Hs as (rs & _ & ->).
    unfold aggregation_steps in Hrun. by rewrite agg_loop_exec in Hrun.
  - rewrite (trace_app_err _ _ _ e0 Hs). apply setup_frame.
Qed.

(** X5. Running the script again on the export directory a successful run
    has left, with an engine that emits groups in the same order, succeeds
    and leaves the same database and the same directory. *)
Theorem rerun_same_directory (E : engine) (src : list (source_row G A))
    (fs : gmap nat json) (w : world D G A) :
  run_on E src fs = Ok w → run_on E src (files w) = Ok w.
Proof.
  intros Hrun. apply run_inv in Hrun as (rs & Hn & ->). cbn [files].
  set (t := Table scales (tag_row h3_latlng_to_cell scales <$> rs)).
  set (fs1 := exported h3_cell_to_boundary_wkt E t fs scales).
  apply normalizer_rows in Hn. apply (normalizer_rows src fs1) in Hn.
  destruct (run_ok ST_Transform ST_X ST_Y h3_latlng_to_cell
              h3_cell_to_boundary_wkt E src fs1 rs Hn) as [_ ->].
  do 2 f_equal. apply map_eq. intros j. fold t.
  rewrite exported_lookup. unfold fs1. rewrite exported_lookup.
  by destruct (decide (j ∈ scales)).
Qed.

End RowByRow.

(** * The aggregate under a change of the input *)

Lemma Forall2_perm_l {X Y : Type} (P : X → Y → Prop) (l l' : list X) (k : list Y) :
  l ≡ₚ l' → Forall2 P l k → ∃ k', k ≡ₚ k' ∧ Forall2 P l' k'.
Proof.
  intros Hp. revert k. induction Hp as [|x l l' _ IH|x y l|l l' l'' _ IH1 _ IH2]; intros k Hk.
  - exists k. done.
  - apply Forall2_cons_inv_l in Hk as (z & k1 & Hz & Hk1 & ->).
    destruct (IH k1 Hk1) as (k' & Hp' & Hk'). exists (z :: k').
    split; [by constructor|by constructor].
  - apply Forall2_cons_inv_l in Hk as (z1 & k1 & Hz1 & Hk1 & ->).
    apply Forall2_cons_inv_l in Hk1 as (z2 & k2 & Hz2 & Hk2 & ->).
    exists (z2 :: z1 :: k2). split; [apply perm_swap|by repeat constructor].
  - destruct (IH1 k Hk) as (k' & Hp' & Hk').
    destruct (IH2 k' Hk') as (k'' & Hp'' & Hk'').
    exists k''. split; [by etrans|done].
Qed.

Lemma remove_dups_length_le {K : Type} `{EqDecision K} (l : list K) :
  length (remove_dups l) ≤ length l.
Proof.
  induction l as [|x l IH]; [done|]. cbn [remove_dups].
  destruct (decide_rel elem_of x l); simpl; lia.
Qed.

Section ChangeOfInput.
Context {D G A : Type}.
Variable h3_cell_to_boundary_wkt : Z → option string.

#[local] Abbreviation aggr := (aggregate (D:=D) (G:=G) (A:=A) h3_cell_to_boundary_wkt).
#[local] Abbreviation aggr_table :=
  (aggregate_table (D:=D) (G:=G) (A:=A) h3_cell_to_boundary_wkt).

(** The aggregate does not depend on the order of the points. *)
Lemma aggregate_perm (j : nat) (rs rs' : list (row D G A)) :
  rs ≡ₚ rs' → aggr j rs ≡ₚ aggr j rs'.
Proof.
  intros Hp. rewrite !aggregate_unfold.
  assert (remove_dups (cell_at j <$> rs) ≡ₚ remove_dups (cell_at j <$> rs')) as Hks.
  { apply NoDup_Permutation; try apply NoDup_remove_dups.
    intros k. by rewrite !elem_of_remove_dups, Hp. }
  rewrite Hks. erewrite list_fmap_ext; [done|]. intros _ k _. cbn beta.
  f_equal. unfold sql_count, points_in_cell. by rewrite Hp.
Qed.

Lemma sum_counts_select (F : option Z → agg_row) (z : Z) (ks : list (option Z)) :
  (∀ k, cell (F k) = k) → NoDup ks →
  sum_counts (filter (λ a, cell a = Some z) (F <$> ks))
  = if decide (Some z ∈ ks) then count (F (Some z)) else 0%Z.
Proof.
  intros HF. induction 1 as [|k ks Hk _ IH]; [done|].
  rewrite fmap_cons, filter_cons, HF.
  destruct (decide (k = Some z)) as [->|Hne].
  - cbn [sum_counts foldr]. fold (sum_counts (filter (λ a, cell a = Some z) (F <$> ks))).
    rewrite IH, decide_False by done. rewrite decide_True by by left. lia.
  - rewrite IH. destruct (decide (Some z ∈ ks)) as [Hin|Hin].
    + rewrite decide_True by by right. done.
    + rewrite decide_False; [done|]. intros [?|?]%elem_of_cons; congruence.
Qed.

(** The count held for a cell is the number of points in it, 0 included. *)
Lemma cell_count_aggregate (E : engine) (j : nat) (rs : list (row D G A)) (z : Z) :
  cell_count (aggr_table E j rs) z
  = Z.of_nat (length (points_in_cell j (Some z) rs)).
Proof.
  unfold cell_count, aggregate_table.
  rewrite (sum_counts_perm _ (filter (λ a, cell a = Some z) (aggr j rs)))
    by (by rewrite group_order_perm).
  rewrite aggregate_unfold, sum_counts_select; [|done|apply NoDup_remove_dups].
  destruct (decide _) as [Hin|Hin]; [apply sql_count_cell|].
  destruct (points_in_cell j (Some z) rs) as [|r l] eqn:Hf; [done|].
  exfalso. apply Hin. rewrite elem_of_remove_dups.
  assert (r ∈ points_in_cell j (Some z) rs) as Hr by (rewrite Hf; by left).
  unfold points_in_cell in Hr. apply list_elem_of_filter in Hr as [<- Hr].
  by apply list_elem_of_fmap_2.
Qed.

(** X7. Counts add up over the union of two point relations: for every
    cell, the count the resolution-[j] aggregate of [rs1 ++ rs2] holds is
    the sum of the counts the aggregates of [rs1] and of [rs2] hold (0 for
    a cell without a row).  Points are never deduplicated. *)
Theorem counts_additive (E E1 E2 : engine) (j : nat) (rs1 rs2 : list (row D G A))
    (z : Z) :
  cell_count (aggr_table E j (rs1 ++ rs2)) z
  = (cell_count (aggr_table E1 j rs1) z + cell_count (aggr_table E2 j rs2) z)%Z.
Proof.
  rewrite !cell_count_aggregate. unfold points_in_cell.
  rewrite filter_app, length_app. lia.
Qed.

(** X8. The aggregate relation has at most as many rows as there are
    points, at least one row when there is a point, and no count in it
    exceeds the number of points. *)
Theorem aggregate_size (E : engine) (j : nat) (rs : list (row D G A)) :
  length (aggr_table E j rs) ≤ length rs
  ∧ (rs ≠ [] → 0 < length (aggr_table E j rs))
  ∧ (∀ a, a ∈ aggr_table E j rs → (0 ≤ count a ≤ Z.of_nat (length rs))%Z).
Proof.
  split; [|split].
  - rewrite aggregate_table_length. etrans; [apply remove_dups_length_le|].
    by rewrite length_fmap.
  - intros Hne. rewrite aggregate_table_length.
    destruct rs as [|r rs]; [done|].
    assert (cell_at j r ∈ remove_dups (cell_at j <$> r :: rs)) as Hin
      by (rewrite elem_of_remove_dups; by left).
    destruct (remove_dups _); [by apply elem_of_nil in Hin|simpl; lia].
  - intros a Ha. apply elem_of_aggregate_table, elem_of_aggregate in Ha.
    destruct Ha as (_ & _ & ->). unfold sql_count, points_in_cell. split; [lia|].
    apply inj_le. etrans; [apply length_filter|apply length_filter].
Qed.

End ChangeOfInput.

Section InputOrder.
Context {D G A : Type}.
Variable ST_Transform : G → res (option G).
Variable ST_X : G → res (option D).
Variable ST_Y : G → res (option D).
Variable h3_latlng_to_cell : D → D → nat → option Z.
Variable h3_cell_to_boundary_wkt : Z → option string.

#[local] Abbreviation run_of :=
  (run (A:=A) ST_Transform ST_X ST_Y h3_latlng_to_cell h3_cell_to_boundary_wkt).

(** X6. The order of the features in the source does not matter: if a run
    succeeds, a run on the same features in any other order succeeds as
    well, and for every resolution 0..15 the two artifacts hold the same
    records up to the order of the rows. *)
Theorem input_order_invariance (E E' : engine) (src src' : list (source_row G A))
    (fs fs' : gmap nat json) (w : world D G A) :
  src ≡ₚ src' → run_of E src fs = Ok w →
  ∃ w', run_of E' src' fs' = Ok w'
    ∧ ∀ j, j ≤ 15 →
        ∃ l l', files w !! j = Some (copy_array l)
              ∧ files w' !! j = Some (copy_array l')
              ∧ l ≡ₚ l'.
Proof.
  intros Hp Hrun. apply run_inv in Hrun as (rs & Hn & ->).
  apply normalizer_rows in Hn.
  destruct (Forall2_perm_l _ _ _ _ Hp Hn) as (rs' & Hrs & Hn').
  apply (normalizer_rows _ _ _ src' fs') in Hn'.
  destruct (run_ok ST_Transform ST_X ST_Y h3_latlng_to_cell
              h3_cell_to_boundary_wkt E' src' fs' rs' Hn') as [_ Hrun'].
  eexists. split; [exact Hrun'|]. intros j Hj. cbn [files].
  rewrite !exported_lookup, !decide_True by by apply elem_of_scales.
  do 2 eexists. split; [done|]. split; [done|].
  unfold aggregate_table. rewrite !group_order_perm. cbn [rows].
  apply aggregate_perm. by rewrite Hrs.
Qed.

End InputOrder.

(** * [main] and the download *)

Section MainFacts.
Variable T : Type.
Variable fromtimestamp : T → Z.

(** X9. [main] leaves a shapefile alone that was modified two weeks ago or
    later, the instant exactly two weeks ago included: it creates the two
    directories and makes no call to download, extract or remove. *)
Theorem main_keeps_fresh_shapefile (fs : gmap string T) (now : Z) (mtime : T) :
  fs !! shapefile_path = Some mtime →
  (now - 14 * 24 * 60 * 60 * 1000000 ≤ fromtimestamp mtime)%Z →
  main T fromtimestamp fs now = [Mkdir extract_path; Mkdir "public/data"].
Proof.
  intros Hm Hfresh. unfold main, is_file_older_than_two_weeks. rewrite Hm.
  cbn zeta. rewrite bool_decide_false; [done|]. unfold timedelta_weeks. lia.
Qed.

(** X10. The check is monotone in the reading of the clock: if it answers
    [True] for a path when [datetime.now()] returns [now], it answers
    [True] on the same files whenever [datetime.now()] returns a value
    [now'] that is not smaller.  (The local clock itself may be set back,
    as at the end of summer time; nothing is said of that case.) *)
Theorem staleness_monotone (fs : gmap string T) (now now' : Z) (filepath : string) :
  (now ≤ now')%Z →
  is_file_older_than_two_weeks T fromtimestamp fs now filepath = true →
  is_file_older_than_two_weeks T fromtimestamp fs now' filepath = true.
Proof.
  intros Hle. unfold is_file_older_than_two_weeks.
  destruct (fs !! filepath) as [mtime|]; [|done]. cbn zeta.
  rewrite !bool_decide_eq_true. lia.
Qed.

End MainFacts.

Section DownloadFacts.
Variable response : Type.
Variable requests_get : string → res response.
Variable raise_for_status : response → res unit.
Variable iter_content : response → Z → list (list Byte.byte) * option error.

Lemma write_chunks_lookup (path p : string) (chunks : list (list Byte.byte))
    (fs : gmap string (list Byte.byte)) :
  foldl (write_chunk path) fs chunks !! p
  = if decide (p = path)
    then (λ content, (content ++ concat chunks)%list) <$> fs !! p
    else fs !! p.
Proof.
  revert fs. induction chunks as [|c chunks IH]; intros fs; cbn [foldl concat].
  - destruct (decide (p = path)); [|done].
    destruct (fs !! p); simpl; [|done]. by rewrite app_nil_r.
  - rewrite IH. unfold write_chunk. destruct (decide (p = path)) as [->|Hne].
    + rewrite lookup_alter_eq. destruct (fs !! path); simpl; [|done].
      by rewrite <- app_assoc.
    + by rewrite lookup_alter_ne.
Qed.

(** X11. What a download leaves on disk.  If the request or the status
    check raises, the files are exactly as before: nothing is created or
    truncated.  Otherwise the output file holds the chunks the response
    yielded, concatenated in order and nothing else (the whole body when
    the stream ends, the part received when it raises), every other file
    is untouched, and the call returns exactly when the stream ends. *)
Theorem download_leaves (url output_file : string)
    (fs : gmap string (list Byte.byte)) :
  let after :=
    download_borehole_data response requests_get raise_for_status iter_content
      url output_file fs in
  (∀ e, requests_get url = Err e → after = (fs, Err e))
  ∧ (∀ r e, requests_get url = Ok r → raise_for_status r = Err e →
       after = (fs, Err e))
  ∧ (∀ r, requests_get url = Ok r → raise_for_status r = Ok () →
       let stream := iter_content r 8192 in
       after.1 !! output_file = Some (concat (stream.1))
       ∧ (∀ p, p ≠ output_file → after.1 !! p = fs !! p)
       ∧ (after.2 = Ok () ↔ stream.2 = None)).
Proof.
  cbn zeta. unfold download_borehole_data. split; [|split].
  - by intros e ->.
  - by intros r e -> ->.
  - intros r -> ->. cbn zeta. cbn [fst snd]. split; [|split].
    + rewrite write_chunks_lookup, decide_True by done.
      by rewrite lookup_insert_eq.
    + intros p Hp. rewrite write_chunks_lookup, decide_False by done.
      by rewrite lookup_insert_ne.
    + destruct (iter_content r 8192).2; split; done.
Qed.

End DownloadFacts.

(** ** The further theorems at the example *)

Lemma three_run :
  run strip_transform strip_x strip_y strip_index strip_wkt in_order
      three_boreholes ∅
  = Ok (World (Some three_tagged) ∅ three_exported).
Proof. vm_compute. reflexivity. Qed.

Lemma south_run :
  run north_transform strip_x strip_y strip_index strip_wkt in_order
      south_borehole ∅
  = Err FunctionRaised.
Proof. vm_compute. reflexivity. Qed.

Lemma tagged_rows_from_source_witness :
  run strip_transform strip_x strip_y strip_index strip_wkt in_order
      three_boreholes ∅
  = Ok (World (Some three_tagged) ∅ three_exported)
  ∧ ∃ t, boreholes (World (Some three_tagged) ∅ three_exported) = Some t
    ∧ h3_columns t = scales
    ∧ Forall2 (λ s r,
         attrs r = src_attrs s
         ∧ sql_call strip_transform (src_geom s) = Ok (geom r)
         ∧ sql_call strip_x (geom r) = Ok (lon r)
         ∧ sql_call strip_y (geom r) = Ok (lat r)
         ∧ (∀ j, j ≤ 15 → cell_at j r = cell_of strip_index (lat r) (lon r) j)
         ∧ (src_geom s = None →
              geom r = None ∧ lon r = None ∧ lat r = None
              ∧ ∀ j, cell_at j r = None))
       three_boreholes (rows t).
Proof.
  split; [exact three_run|].
  exact (tagged_rows_from_source strip_transform strip_x strip_y strip_index
           strip_wkt in_order three_boreholes ∅ _ three_run).
Defined.

Lemma run_final_state_witness :
  let w := World (Some three_tagged) ∅ three_exported in
  run strip_transform strip_x strip_y strip_index strip_wkt in_order
      three_boreholes ∅ = Ok w
  ∧ aggs w = ∅
  ∧ (∀ j, 15 < j → files w !! j = (∅ : gmap nat json) !! j)
  ∧ ∃ t, boreholes w = Some t
      ∧ ∀ j, j ≤ 15 →
          files w !! j
          = Some (copy_array (aggregate_table strip_wkt in_order j (rows t))).
Proof.
  intros w. split; [exact three_run|].
  exact (run_final_state strip_transform strip_x strip_y strip_index
           strip_wkt in_order three_boreholes ∅ w three_run).
Defined.

Lemma failed_run_writes_nothing_witness :
  let w := World (Some (Table [] [Row "BH1" (Some (7, 40000)%Z) None None ∅;
                                  Row "BH4" (Some (3, -5)%Z) None None ∅]))
                 ∅ (∅ : gmap nat json) in
  run north_transform strip_x strip_y strip_index strip_wkt in_order
      south_borehole ∅ = Err FunctionRaised
  ∧ w ∈ trace (script_steps north_transform strip_x strip_y strip_index
                 strip_wkt in_order south_borehole) (fresh ∅)
  ∧ files w = ∅ ∧ aggs w = ∅.
Proof.
  intros w.
  assert (w ∈ trace (script_steps north_transform strip_x strip_y strip_index
                       strip_wkt in_order south_borehole) (fresh ∅)) as Hin
    by (right; left).
  split; [exact south_run|]. split; [exact Hin|].
  exact (failed_run_writes_nothing north_transform strip_x strip_y strip_index
           strip_wkt in_order south_borehole ∅ FunctionRaised w south_run Hin).
Defined.

Lemma rerun_same_directory_witness :
  let w := World (Some three_tagged) ∅ three_exported in
  run strip_transform strip_x strip_y strip_index strip_wkt in_order
      three_boreholes ∅ = Ok w
  ∧ run strip_transform strip_x strip_y strip_index strip_wkt in_order
        three_boreholes (files w) = Ok w.
Proof.
  intros w. split; [exact three_run|].
  exact (rerun_same_directory strip_transform strip_x strip_y strip_index
           strip_wkt in_order three_boreholes ∅ w three_run).
Defined.

Lemma input_order_invariance_witness :
  let w := World (Some three_tagged) ∅ three_exported in
  three_boreholes ≡ₚ reverse three_boreholes
  ∧ run strip_transform strip_x strip_y strip_index strip_wkt in_order
        three_boreholes ∅ = Ok w
  ∧ ∃ w', run strip_transform strip_x strip_y strip_index strip_wkt reversed
              (reverse three_boreholes) three_exported = Ok w'
    ∧ ∀ j, j ≤ 15 →
        ∃ l l', files w !! j = Some (copy_array l)
              ∧ files w' !! j = Some (copy_array l')
              ∧ l ≡ₚ l'.
Proof.
  intros w.
  assert (three_boreholes ≡ₚ reverse three_boreholes) as Hp
    by (symmetry; apply reverse_Permutation).
  split; [exact Hp|]. split; [exact three_run|].
  exact (input_order_invariance strip_transform strip_x strip_y strip_index
           strip_wkt in_order reversed three_boreholes (reverse three_boreholes)
           ∅ three_exported w Hp three_run).
Defined.

Lemma main_keeps_fresh_shapefile_witness :
  let fs : gmap string Z := {[shapefile_path := 1000000000000%Z]} in
  let now := 2209600000000%Z in
  fs !! shapefile_path = Some 1000000000000%Z
  ∧ (now - 14 * 24 * 60 * 60 * 1000000 ≤ id 1000000000000)%Z
  ∧ main Z id fs now = [Mkdir extract_path; Mkdir "public/data"].
Proof.
  intros fs now.
  assert (fs !! shapefile_path = Some 1000000000000%Z) as Hm by reflexivity.
  assert (now - 14 * 24 * 60 * 60 * 1000000 ≤ id 1000000000000)%Z as Hfresh
    by (unfold now, id; lia).
  split; [exact Hm|]. split; [exact Hfresh|].
  exact (main_keeps_fresh_shapefile Z id fs now _ Hm Hfresh).
Defined.

Lemma staleness_monotone_witness :
  let fs : gmap string Z := {[shapefile_path := 1000000000000%Z]} in
  (2209600000001 ≤ 2300000000000)%Z
  ∧ is_file_older_than_two_weeks Z id fs 2209600000001 shapefile_path = true
  ∧ is_file_older_than_two_weeks Z id fs 2300000000000 shapefile_path = true.
Proof.
  intros fs.
  assert (2209600000001 ≤ 2300000000000)%Z as Hle by lia.
  assert (is_file_older_than_two_weeks Z id fs 2209600000001 shapefile_path = true)
    as Hold by reflexivity.
  split; [exact Hle|]. split; [exact Hold|].
  exact (staleness_monotone Z id fs _ _ shapefile_path Hle Hold).
Defined.

(** A stream that breaks after two chunks leaves the two chunks in the
    file, in place of what the file held, and the download raises. *)
Example download_interrupted :
  download_borehole_data _ broken_get broken_status broken_content
    borehole_url zip_file {[zip_file := [Byte.xff]]}
  = ({[zip_file := [Byte.x50; Byte.x4b; Byte.x03; Byte.x04]]}, Err FunctionRaised).
Proof. vm_compute. reflexivity. Qed.
